(** * Library catalog server: borrow / return lifecycle

    A shallow embedding of the two Express programs of the repository,
    [server.js] and the second, smaller server kept beside it (part_000),
    and of the part of PostgreSQL and of node-postgres they rely on.

    - JSON request data is the type [value]; the JavaScript operators the
      handlers apply to it ([||], [!], [?.], [.toString()], [.trim()],
      [!==]) are functions on [value].  Numbers are the integers; strings
      are ASCII.
    - The [books] table is a finite map from the primary key [id], an
      integer of four bytes, to the other columns, together with the
      sequence behind [serial].
    - Every SQL text of the sources is one constructor of [statement];
      [exec] gives its meaning as one indivisible step on the table: the
      parameters are bound first, and a parameter the store cannot take
      (an id that does not fit the column, a text holding the character
      of code zero) fails the statement before any row is read.
    - A handler is a [prog]: it answers, or it awaits one statement and
      continues with its result.  Between two awaits JavaScript runs
      without interruption, so the awaits are the only interleaving points.
    - Failures of the store that no request causes (a lost connection)
      are not modelled, and neither is an [:id] segment that is not an
      integer. *)

From stdpp Require Import base option list gmap strings sorting relations.
From Stdlib Require Import ZArith Ascii String DecimalString Lia.

Local Open Scope string_scope.
Local Open Scope list_scope.
Local Open Scope Z_scope.

(** ** JavaScript values, as JSON.parse and the query parser build them *)

Module JS.

#[local] Set Warnings "-register-all".

Inductive value :=
| VUndefined
| VNull
| VBool (b : bool)
| VNum (n : Z)
| VStr (s : string)
| VArr (xs : list value)
| VObj (props : list (string * value)).

(** What a handler can throw or a statement can be rejected with. *)
Inductive exn :=
| TypeError
| not_null_violation
| unique_violation
| numeric_value_out_of_range
| character_not_in_repertoire
| sequence_generator_limit_exceeded.

(** ToBoolean. *)
Definition truthy (v : value) : bool :=
  match v with
  | VUndefined | VNull => false
  | VBool b => b
  | VNum n => negb (Z.eqb n 0)
  | VStr s => negb (String.eqb s "")
  | VArr _ | VObj _ => true
  end.

(** [a || b] *)
Definition or (a b : value) : value := if truthy a then a else b.

Fixpoint own (k : string) (props : list (string * value)) : option value :=
  match props with
  | [] => None
  | (k', v) :: rest => if String.eqb k k' then Some v else own k rest
  end.

(** [v?.k] for a key [k] that no prototype defines. *)
Definition prop (k : string) (v : value) : value :=
  match v with
  | VObj props => default VUndefined (own k props)
  | _ => VUndefined
  end.

(** A destructuring default, [{ k = d }]: only [undefined] takes it. *)
Definition or_default (v d : value) : value :=
  match v with VUndefined => d | _ => v end.

Definition of_header (h : option string) : value :=
  match h with Some s => VStr s | None => VUndefined end.

(** [a === s] against a string. *)
Definition strict_eq_string (a : value) (s : string) : bool :=
  match a with VStr t => String.eqb t s | _ => false end.

Definition string_of_Z (n : Z) : string := NilZero.string_of_int (Z.to_int n).

(** [v.toString()]; [None] is the TypeError of calling what is not a
    function.  An object built by JSON.parse inherits
    Object.prototype.toString unless it has an own property of that name,
    which is then never callable.  Array.prototype.toString joins the
    elements with commas, [null] and [undefined] giving the empty string. *)
Fixpoint toString (v : value) : option string :=
  match v with
  | VUndefined | VNull => None
  | VBool b => Some (if b then "true" else "false")
  | VNum n => Some (string_of_Z n)
  | VStr s => Some s
  | VArr xs =>
      (fix join (l : list value) : option string :=
         match l with
         | [] => Some ""
         | x :: l' =>
             match (match x with
                    | VUndefined | VNull => Some ""
                    | _ => toString x
                    end), join l' with
             | Some sx, Some rest =>
                 Some (match l' with [] => sx | _ => sx +:+ "," +:+ rest end)
             | _, _ => None
             end
         end) xs
  | VObj props =>
      match own "toString" props with
      | Some _ => None
      | None => Some "[object Object]"
      end
  end.

Definition is_space (c : ascii) : bool :=
  let n := nat_of_ascii c in
  ((9 <=? n) && (n <=? 13) || (n =? 32))%nat.

Fixpoint trimStart (s : string) : string :=
  match s with
  | String c s' => if is_space c then trimStart s' else s
  | EmptyString => EmptyString
  end.

Fixpoint trimEnd (s : string) : string :=
  match s with
  | EmptyString => EmptyString
  | String c s' =>
      match trimEnd s' with
      | EmptyString => if is_space c then EmptyString else String c EmptyString
      | t => String c t
      end
  end.

(** [s.trim()] *)
Definition trim (s : string) : string := trimEnd (trimStart s).

End JS.

(** ** The store: the [books] table and the statements run against it *)

Module Pg.

(** The columns other than the key.  [title] is [text not null]; the
    others may hold NULL. *)
Record row := {
  title : string;
  author : option string;
  category : option string;
  description : option string;
  is_borrowed : option bool;
  borrower : option string;
  borrowed_at : option Z;
  returned_at : option Z
}.

(** The values of the type [integer], which [serial] gives to [id]. *)
Definition int4 (n : Z) : bool :=
  (-2147483648 <=? n) && (n <=? 2147483647).

(** What is stored, and the next value of the sequence that [serial]
    draws [id] from. *)
Record store := {
  table : gmap Z row;
  books_id_seq : Z
}.

(** [books] with its primary key: the rows of the table are the bindings
    whose key is a value of the column's type. *)
Definition books (st : store) : gmap Z row :=
  filter (λ x, int4 x.1 = true) (table st).

Definition with_row (id : Z) (r : row) (st : store) : store :=
  {| table := <[id := r]> (table st); books_id_seq := books_id_seq st |}.

Definition without_row (id : Z) (st : store) : store :=
  {| table := delete id (table st); books_id_seq := books_id_seq st |}.

(** The sequence after [nextval]. *)
Definition advanced (st : store) : store :=
  {| table := table st; books_id_seq := books_id_seq st + 1 |}.

(** The table [ensureSchema] creates when there is none. *)
Definition ensureSchema : store := {| table := ∅; books_id_seq := 1 |}.

Inductive statement :=
| select_all
| select_like (pattern : string)
| insert_false (title author category description : option string)
| insert_default (title author category description : option string)
| update_fields (id : Z) (title author category description : option string)
| delete_id (id : Z)
| borrow_clearing (id : Z) (borrower : option string)
| borrow_keeping (id : Z) (borrower : option string)
| return_id (id : Z).

(** [rows] is what [returning *] or the [select] yields, as pairs of the
    key and the other columns. *)
Record result := {
  rows : list (Z * row);
  rowCount : nat
}.

Inductive reply :=
| Ok (r : result)
| Err (e : JS.exn).

Definition lower_ascii (c : ascii) : ascii :=
  let n := nat_of_ascii c in
  if ((65 <=? n) && (n <=? 90))%nat then ascii_of_nat (n + 32) else c.

(** [lower(s)] *)
Fixpoint lower (s : string) : string :=
  match s with
  | EmptyString => EmptyString
  | String c s' => String (lower_ascii c) (lower s')
  end.

(** [s like pat], with the default escape character: [%] matches any run
    of characters, [_] any one character, and a backslash makes the next
    pattern character literal. *)
Fixpoint like (pat : string) : string -> bool :=
  match pat with
  | EmptyString => fun s => match s with EmptyString => true | _ => false end
  | String c p =>
      if Ascii.eqb c "%" then
        fix star (s : string) : bool :=
          like p s || match s with
                      | EmptyString => false
                      | String _ s' => star s'
                      end
      else if Ascii.eqb c "_" then
        fun s => match s with
                 | EmptyString => false
                 | String _ s' => like p s'
                 end
      else if Ascii.eqb c "\" then
        match p with
        | EmptyString => fun _ => false
        | String c' p' =>
            fun s => match s with
                     | EmptyString => false
                     | String a s' => Ascii.eqb a c' && like p' s'
                     end
        end
      else
        fun s => match s with
                 | EmptyString => false
                 | String a s' => Ascii.eqb a c && like p s'
                 end
  end.

(** [lower(col) like lower($1)] on a column that may be NULL: NULL makes
    the comparison NULL, which selects nothing. *)
Definition col_like (col : option string) (pattern : string) : bool :=
  match col with
  | Some s => like (lower pattern) (lower s)
  | None => false
  end.

Definition where_like (pattern : string) (r : row) : bool :=
  col_like (Some (title r)) pattern
  || col_like (author r) pattern
  || col_like (category r) pattern.

Definition id_le (a b : Z * row) : Prop := a.1 ≤ b.1.

#[export] Instance id_le_dec : RelDecision id_le.
Proof. intros a b. unfold id_le. apply _. Defined.

(** [select * from books order by id asc] *)
Definition order_by_id (t : gmap Z row) : list (Z * row) :=
  merge_sort id_le (map_to_list t).

(** [coalesce($n, col)] *)
Definition coalesce {A} (p : option A) (col : option A) : option A :=
  match p with Some _ => p | None => col end.

Definition new_row (t : string) (a c d : option string) : row :=
  {| title := t; author := a; category := c; description := d;
     is_borrowed := Some false; borrower := None;
     borrowed_at := None; returned_at := None |}.

(** Both [insert] texts: the key is drawn from the sequence, which fails
    once it has passed the last value of [integer] and is otherwise
    advanced whether or not the row is then accepted. *)
Definition insert (t a c d : option string) (st : store) : store * reply :=
  let id := books_id_seq st in
  if negb (int4 id) then (st, Err JS.sequence_generator_limit_exceeded)
  else
    match t with
    | None => (advanced st, Err JS.not_null_violation)
    | Some t =>
        match books st !! id with
        | Some _ => (advanced st, Err JS.unique_violation)
        | None =>
            let r := new_row t a c d in
            (with_row id r (advanced st),
             Ok {| rows := [(id, r)]; rowCount := 1 |})
        end
    end.

(** [update books set ... where <cond> returning *] on the key [id]. *)
Definition update_where (id : Z) (cond : row -> bool) (set : row -> row)
    (st : store) : store * reply :=
  match books st !! id with
  | Some r =>
      if cond r then
        (with_row id (set r) st,
         Ok {| rows := [(id, set r)]; rowCount := 1 |})
      else (st, Ok {| rows := []; rowCount := 0 |})
  | None => (st, Ok {| rows := []; rowCount := 0 |})
  end.

Definition set_fields (t a c d : option string) (r : row) : row :=
  {| title := default (title r) t;
     author := coalesce a (author r);
     category := coalesce c (category r);
     description := coalesce d (description r);
     is_borrowed := is_borrowed r; borrower := borrower r;
     borrowed_at := borrowed_at r; returned_at := returned_at r |}.

(** [is_borrowed = b]: NULL is neither. *)
Definition is_borrowed_eq (b : bool) (r : row) : bool :=
  match is_borrowed r with
  | Some b' => Bool.eqb b' b
  | None => false
  end.

Definition set_borrowed_clearing (who : option string) (now : Z) (r : row) : row :=
  {| title := title r; author := author r; category := category r;
     description := description r;
     is_borrowed := Some true; borrower := who;
     borrowed_at := Some now; returned_at := None |}.

Definition set_borrowed_keeping (who : option string) (now : Z) (r : row) : row :=
  {| title := title r; author := author r; category := category r;
     description := description r;
     is_borrowed := Some true; borrower := who;
     borrowed_at := Some now; returned_at := returned_at r |}.

Definition set_returned (now : Z) (r : row) : row :=
  {| title := title r; author := author r; category := category r;
     description := description r;
     is_borrowed := Some false; borrower := Some "";
     borrowed_at := borrowed_at r; returned_at := Some now |}.

(** The character of code zero, which no text of the store may hold. *)
Fixpoint has_nul (s : string) : bool :=
  match s with
  | EmptyString => false
  | String c s' => Ascii.eqb c zero || has_nul s'
  end.

(** The parameters of a statement, [$1], [$2], ... in order. *)
Inductive parameter :=
| as_integer (n : Z)
| as_text (s : option string).

Definition parameters (q : statement) : list parameter :=
  match q with
  | select_all => []
  | select_like pattern => [as_text (Some pattern)]
  | insert_false t a c d | insert_default t a c d =>
      [as_text t; as_text a; as_text c; as_text d]
  | update_fields id t a c d =>
      [as_integer id; as_text t; as_text a; as_text c; as_text d]
  | delete_id id | return_id id => [as_integer id]
  | borrow_clearing id who | borrow_keeping id who =>
      [as_integer id; as_text who]
  end.

Definition refused (p : parameter) : option JS.exn :=
  match p with
  | as_integer n =>
      if int4 n then None else Some JS.numeric_value_out_of_range
  | as_text (Some s) =>
      if has_nul s then Some JS.character_not_in_repertoire else None
  | as_text None => None
  end.

(** Binding: the first parameter the store refuses, if any. *)
Fixpoint bind (ps : list parameter) : option JS.exn :=
  match ps with
  | [] => None
  | p :: ps' =>
      match refused p with
      | Some e => Some e
      | None => bind ps'
      end
  end.

(** A statement whose parameters are bound, run at time [now]. *)
Definition execute (q : statement) (now : Z) (st : store) : store * reply :=
  match q with
  | select_all =>
      let out := order_by_id (books st) in
      (st, Ok {| rows := out; rowCount := List.length out |})
  | select_like pattern =>
      let out := filter (λ x, where_like pattern x.2 = true) (order_by_id (books st)) in
      (st, Ok {| rows := out; rowCount := List.length out |})
  | insert_false t a c d => insert t a c d st
  | insert_default t a c d => insert t a c d st
  | update_fields id t a c d => update_where id (λ _, true) (set_fields t a c d) st
  | delete_id id =>
      match books st !! id with
      | Some _ => (without_row id st, Ok {| rows := []; rowCount := 1 |})
      | None => (st, Ok {| rows := []; rowCount := 0 |})
      end
  | borrow_clearing id who =>
      update_where id (is_borrowed_eq false) (set_borrowed_clearing who now) st
  | borrow_keeping id who =>
      update_where id (is_borrowed_eq false) (set_borrowed_keeping who now) st
  | return_id id =>
      update_where id (is_borrowed_eq true) (set_returned now) st
  end.

(** One statement, run at time [now]: a statement whose parameters
    cannot be bound is rejected and nothing has happened. *)
Definition exec (q : statement) (now : Z) (st : store) : store * reply :=
  match bind (parameters q) with
  | Some e => (st, Err e)
  | None => execute q now st
  end.

(** node-postgres turns each JavaScript parameter into text or NULL before
    it is sent.  [compound] stands for its rendering of an array (an array
    literal) or of an object (its JSON text). *)
Section prepare.
Variable compound : JS.value -> string.

Definition prepareValue (v : JS.value) : option string :=
  match v with
  | JS.VUndefined | JS.VNull => None
  | JS.VBool b => Some (if b then "true" else "false")
  | JS.VNum n => Some (JS.string_of_Z n)
  | JS.VStr s => Some s
  | JS.VArr _ | JS.VObj _ => Some (compound v)
  end.

End prepare.

End Pg.

(** ** Requests, responses and handlers *)

Module Http.

(** The parts of an Express request the handlers read.  [params_id] is the
    [:id] segment as the integer the statement receives. *)
Record request := {
  x_admin_key : option string;
  body : JS.value;
  query : JS.value;
  params_id : Z
}.

(** A timestamp as [mapRow] sends it: the empty string, or the ISO text of
    the instant. *)
Inductive isotime :=
| unset
| iso (t : Z).

Record Book := {
  id : Z;
  title : string;
  author : string;
  category : string;
  description : string;
  isBorrowed : bool;
  borrower : string;
  borrowedAt : isotime;
  returnedAt : isotime
}.

(** What [res.json] is given. *)
Inductive json :=
| error (msg : string)
| error_of (e : JS.exn)
| ok_true
| book (b : Book)
| book_list (bs : list Book)
| raw_row (r : Z * Pg.row)
| raw_rows (rs : list (Z * Pg.row))
| json_undefined.

(** A handler from its first line on: it sends a response, or it throws
    where nothing catches, or it awaits [pool.query] and goes on with the
    reply. *)
Inductive prog :=
| respond (status : Z) (payload : json)
| unhandled (e : JS.exn)
| await_query (q : Pg.statement) (k : Pg.reply -> prog).

Inductive outcome :=
| sent (status : Z) (payload : json)
| nothing_sent (e : JS.exn).

(** A handler run alone, its statements executing at time [now]. *)
Fixpoint run (p : prog) (now : Z) (st : Pg.store) : Pg.store * outcome :=
  match p with
  | respond status payload => (st, sent status payload)
  | unhandled e => (st, nothing_sent e)
  | await_query q k =>
      let '(st', r) := Pg.exec q now st in run (k r) now st'
  end.

(** The statements such a run sends to the store, in order. *)
Fixpoint queries (p : prog) (now : Z) (st : Pg.store) : list Pg.statement :=
  match p with
  | respond _ _ | unhandled _ => []
  | await_query q k =>
      let '(st', r) := Pg.exec q now st in q :: queries (k r) now st'
  end.

(** Requests in flight against one store.  A step lets one handler that
    is waiting on a statement have it executed, at some time [now], and
    run on to its next await or to its response. *)
Inductive step : Pg.store * list prog -> Pg.store * list prog -> Prop :=
| step_query st ts i q k now st' r :
    ts !! i = Some (await_query q k) ->
    Pg.exec q now st = (st', r) ->
    step (st, ts) (st', <[i := k r]> ts).

End Http.

(** ** server.js *)

Module Server.
Import JS Http.

Section server.

(** [process.env.ADMIN_KEY], and node-postgres's text for a parameter that
    is an array or an object. *)
Variable env_ADMIN_KEY : option string.
Variable compound : value -> string.

Definition ADMIN_KEY : string :=
  match env_ADMIN_KEY with
  | Some s => if String.eqb s "" then "admin123" else s
  | None => "admin123"
  end.

(** The [key] of [okAdmin]. *)
Definition admin_key (req : request) : value :=
  or (of_header (x_admin_key req))
     (or (prop "adminKey" (body req)) (prop "adminKey" (query req))).

(** [if (!okAdmin(req, res)) return; rest] *)
Definition okAdmin (req : request) (rest : prog) : prog :=
  if negb (strict_eq_string (admin_key req) ADMIN_KEY)
  then respond 401 (error "unauthorized")
  else rest.

Definition iso_of (t : option Z) : isotime :=
  match t with Some t => iso t | None => unset end.

Definition mapRow (r : Z * Pg.row) : Book :=
  {| id := r.1;
     title := Pg.title r.2;
     author := default "" (Pg.author r.2);
     category := default "" (Pg.category r.2);
     description := default "" (Pg.description r.2);
     isBorrowed := default false (Pg.is_borrowed r.2);
     borrower := default "" (Pg.borrower r.2);
     borrowedAt := iso_of (Pg.borrowed_at r.2);
     returnedAt := iso_of (Pg.returned_at r.2) |}.

(** [catch (e) { res.status(500).json({ error: e.message }) }] *)
Definition caught (e : exn) : prog := respond 500 (error_of e).

(** [res.json(out.map(mapRow))] *)
Definition send_books (r : Pg.reply) : prog :=
  match r with
  | Pg.Ok res => respond 200 (book_list (map mapRow (Pg.rows res)))
  | Pg.Err e => caught e
  end.

(** [res.json(mapRow(rows[0]))]; [mapRow(undefined)] throws. *)
Definition send_first (rows : list (Z * Pg.row)) : prog :=
  match rows with
  | r :: _ => respond 200 (book (mapRow r))
  | [] => caught TypeError
  end.

(** [if (!rows.length) return res.status(status).json({ error: msg });
     res.json(mapRow(rows[0]))] *)
Definition send_row_or (status : Z) (msg : string) (r : Pg.reply) : prog :=
  match r with
  | Pg.Ok res =>
      match Pg.rows res with
      | [] => respond status (error msg)
      | rows => send_first rows
      end
  | Pg.Err e => caught e
  end.

Definition get_api_books (req : request) : prog :=
  match toString (or (prop "q" (query req)) (VStr "")) with
  | None => caught TypeError
  | Some s =>
      let q := trim s in
      if negb (String.eqb q "")
      then await_query (Pg.select_like ("%" +:+ q +:+ "%")) send_books
      else await_query Pg.select_all send_books
  end.

Definition post_api_books (req : request) : prog :=
  okAdmin req
    (let b := or (body req) (VObj []) in
     let title := prop "title" b in
     let author := or_default (prop "author" b) (VStr "") in
     let category := or_default (prop "category" b) (VStr "") in
     let description := or_default (prop "description" b) (VStr "") in
     if negb (truthy title) then respond 400 (error "title required")
     else
       await_query
         (Pg.insert_false (Pg.prepareValue compound title)
            (Pg.prepareValue compound author)
            (Pg.prepareValue compound category)
            (Pg.prepareValue compound description))
         (λ r, match r with
               | Pg.Ok res => send_first (Pg.rows res)
               | Pg.Err e => caught e
               end)).

Definition put_api_books_id (req : request) : prog :=
  okAdmin req
    (let id := params_id req in
     let b := or (body req) (VObj []) in
     await_query
       (Pg.update_fields id
          (Pg.prepareValue compound (prop "title" b))
          (Pg.prepareValue compound (prop "author" b))
          (Pg.prepareValue compound (prop "category" b))
          (Pg.prepareValue compound (prop "description" b)))
       (send_row_or 404 "not found")).

Definition delete_api_books_id (req : request) : prog :=
  okAdmin req
    (let id := params_id req in
     await_query (Pg.delete_id id)
       (λ r, match r with
             | Pg.Ok res =>
                 match Pg.rowCount res with
                 | O => respond 404 (error "not found")
                 | _ => respond 200 ok_true
                 end
             | Pg.Err e => caught e
             end)).

Definition post_api_borrow_id (req : request) : prog :=
  okAdmin req
    (let id := params_id req in
     match toString (or (prop "borrower" (body req)) (VStr "unknown")) with
     | None => caught TypeError
     | Some borrower =>
         await_query
           (Pg.borrow_clearing id (Pg.prepareValue compound (VStr borrower)))
           (send_row_or 400 "not found or already borrowed")
     end).

Definition post_api_return_id (req : request) : prog :=
  okAdmin req
    (let id := params_id req in
     await_query (Pg.return_id id)
       (send_row_or 400 "not found or not borrowed")).

Inductive route :=
| GET_api_books
| POST_api_books
| PUT_api_books_id
| DELETE_api_books_id
| POST_api_borrow_id
| POST_api_return_id.

Definition app (r : route) : request -> prog :=
  match r with
  | GET_api_books => get_api_books
  | POST_api_books => post_api_books
  | PUT_api_books_id => put_api_books_id
  | DELETE_api_books_id => delete_api_books_id
  | POST_api_borrow_id => post_api_borrow_id
  | POST_api_return_id => post_api_return_id
  end.

Definition mutating (r : route) : bool :=
  match r with GET_api_books => false | _ => true end.

(** The request carries the configured secret where [okAdmin] looks. *)
Definition authorized (req : request) : Prop :=
  strict_eq_string (admin_key req) ADMIN_KEY = true.

(** The stores the server can be in: the table as first created, then any
    requests, one after the other. *)
Inductive reachable : Pg.store -> Prop :=
| reach_start : reachable Pg.ensureSchema
| reach_request st r req now :
    reachable st -> reachable (run (app r req) now st).1.

End server.
End Server.

(** ** The second server (part_000) *)

Module Part000.
Import JS Http.

Section server.

Variable env_ADMIN_KEY : option string.
Variable compound : value -> string.

Definition ADMIN_KEY : string :=
  match env_ADMIN_KEY with
  | Some s => if String.eqb s "" then "admin123" else s
  | None => "admin123"
  end.

(** No [try]: a rejected statement leaves the request unanswered. *)
Definition get_api_books (req : request) : prog :=
  await_query Pg.select_all
    (λ r, match r with
          | Pg.Ok res => respond 200 (raw_rows (Pg.rows res))
          | Pg.Err e => unhandled e
          end).

(** [res.json(rows[0])] *)
Definition send_first (rows : list (Z * Pg.row)) : prog :=
  match rows with
  | r :: _ => respond 200 (raw_row r)
  | [] => respond 200 json_undefined
  end.

Definition send_row_or (status : Z) (msg : string) (r : Pg.reply) : prog :=
  match r with
  | Pg.Ok res =>
      match Pg.rows res with
      | [] => respond status (error msg)
      | rows => send_first rows
      end
  | Pg.Err e => unhandled e
  end.

Definition post_api_books (req : request) : prog :=
  let key := of_header (x_admin_key req) in
  if negb (strict_eq_string key ADMIN_KEY) then respond 401 (error "unauthorized")
  else
    match body req with
    | VUndefined | VNull => unhandled TypeError
    | b =>
        let title := prop "title" b in
        let author := or_default (prop "author" b) (VStr "") in
        let category := or_default (prop "category" b) (VStr "") in
        let description := or_default (prop "description" b) (VStr "") in
        await_query
          (Pg.insert_default (Pg.prepareValue compound title)
             (Pg.prepareValue compound author)
             (Pg.prepareValue compound category)
             (Pg.prepareValue compound description))
          (λ r, match r with
                | Pg.Ok res => send_first (Pg.rows res)
                | Pg.Err e => unhandled e
                end)
    end.

Definition post_api_borrow_id (req : request) : prog :=
  let key := of_header (x_admin_key req) in
  if negb (strict_eq_string key ADMIN_KEY) then respond 401 (error "unauthorized")
  else
    let id := params_id req in
    let borrower := or (prop "borrower" (body req)) (VStr "unknown") in
    await_query
      (Pg.borrow_keeping id (Pg.prepareValue compound borrower))
      (send_row_or 400 "not found or already borrowed").

Definition post_api_return_id (req : request) : prog :=
  let key := of_header (x_admin_key req) in
  if negb (strict_eq_string key ADMIN_KEY) then respond 401 (error "unauthorized")
  else
    let id := params_id req in
    await_query (Pg.return_id id)
      (send_row_or 400 "not found or not borrowed").

Inductive route :=
| GET_api_books
| POST_api_books
| POST_api_borrow_id
| POST_api_return_id.

Definition app (r : route) : request -> prog :=
  match r with
  | GET_api_books => get_api_books
  | POST_api_books => post_api_books
  | POST_api_borrow_id => post_api_borrow_id
  | POST_api_return_id => post_api_return_id
  end.

Definition authorized (req : request) : Prop :=
  strict_eq_string (of_header (x_admin_key req)) ADMIN_KEY = true.

Inductive reachable : Pg.store -> Prop :=
| reach_start : reachable Pg.ensureSchema
| reach_request st r req now :
    reachable st -> reachable (run (app r req) now st).1.

End server.
End Part000.

(** ** Vocabulary of the specification *)

Module Lifecycle.

Inductive state :=
| Available
| Borrowed.

Definition state_of (r : Pg.row) : option state :=
  match Pg.is_borrowed r with
  | Some false => Some Available
  | Some true => Some Borrowed
  | None => None
  end.

(** The state of the book [id], when there is such a book. *)
Definition book_state (st : Pg.store) (id : Z) : option state :=
  Pg.books st !! id ≫= state_of.

Definition borrower_empty (r : Pg.row) : bool :=
  match Pg.borrower r with
  | None => true
  | Some s => String.eqb s ""
  end.

(** Every key in use was drawn from the sequence. *)
Definition ids_below_seq (st : Pg.store) : Prop :=
  ∀ id r, Pg.books st !! id = Some r -> id < Pg.books_id_seq st.

(** Not borrowed with no borrower, or borrowed with one. *)
Definition consistent (r : Pg.row) : Prop :=
  (Pg.is_borrowed r = Some false ∧ borrower_empty r = true)
  ∨ (Pg.is_borrowed r = Some true ∧ borrower_empty r = false).

Definition all_consistent (st : Pg.store) : Prop :=
  ∀ id r, Pg.books st !! id = Some r -> consistent r.

(** A statement that, if it is a borrow, records a borrower that is not
    empty. *)
Definition names_borrower (q : Pg.statement) : Prop :=
  match q with
  | Pg.borrow_clearing _ who | Pg.borrow_keeping _ who =>
      ∃ s, who = Some s ∧ s ≠ ""
  | _ => True
  end.

(** Every statement the handler can send satisfies [ok]. *)
Fixpoint sends_only (ok : Pg.statement -> Prop) (p : Http.prog) : Prop :=
  match p with
  | Http.await_query q k => ok q ∧ ∀ r, sends_only ok (k r)
  | _ => True
  end.

(** The body gives the borrower as a string, or not at all. *)
Definition borrower_as_text (req : Http.request) : Prop :=
  ∃ given : option string,
    JS.prop "borrower" (Http.body req) = JS.of_header given.

(** The stores server.js reaches when every request is of that kind. *)
Inductive reachable_as_text (env_ADMIN_KEY : option string)
    (compound : JS.value -> string) : Pg.store -> Prop :=
| as_text_start : reachable_as_text env_ADMIN_KEY compound Pg.ensureSchema
| as_text_request st r req now :
    reachable_as_text env_ADMIN_KEY compound st ->
    borrower_as_text req ->
    reachable_as_text env_ADMIN_KEY compound
      (Http.run (Server.app env_ADMIN_KEY compound r req) now st).1.

(** The borrower recorded for a name given, or not given, in the body. *)
Definition recorded_name (given : option string) : string :=
  match given with
  | Some s => if String.eqb s "" then "unknown" else s
  | None => "unknown"
  end.

Definition succeeded (o : Http.outcome) : Prop :=
  ∃ payload, o = Http.sent 200 payload.

(** What [return] has to do at [id] and time [now], [out] being the store
    and the response it leaves and [shown] how a record is sent. *)
Definition return_effect (st : Pg.store) (id now : Z)
    (out : Pg.store * Http.outcome) (shown : Z * Pg.row -> Http.json) : Prop :=
  (book_state st id = Some Borrowed <-> succeeded out.2)
  ∧ ∀ r, Pg.books st !! id = Some r -> Pg.is_borrowed r = Some true ->
      ∃ r', Pg.books out.1 !! id = Some r'
        ∧ book_state out.1 id = Some Available
        ∧ Pg.borrower r' = Some ""
        ∧ Pg.returned_at r' = Some now
        ∧ Pg.borrowed_at r' = Pg.borrowed_at r
        ∧ out.2 = Http.sent 200 (shown (id, r')).

(** What [borrow] has to do, for the name [given] or not in the body. *)
Definition borrow_effect (st : Pg.store) (id now : Z) (given : option string)
    (out : Pg.store * Http.outcome) (shown : Z * Pg.row -> Http.json) : Prop :=
  (book_state st id = Some Available <-> succeeded out.2)
  ∧ ∀ r, Pg.books st !! id = Some r -> Pg.is_borrowed r = Some false ->
      ∃ r', Pg.books out.1 !! id = Some r'
        ∧ book_state out.1 id = Some Borrowed
        ∧ Pg.borrower r' = Some (recorded_name given)
        ∧ Pg.borrowed_at r' = Some now
        ∧ Pg.returned_at r' = None
        ∧ out.2 = Http.sent 200 (shown (id, r')).

Definition answered (p : Http.prog) : Prop :=
  match p with
  | Http.await_query _ _ => False
  | _ => True
  end.

(** A borrow request in flight has won when it has answered 200, and lost
    when it has answered with the conflict. *)
Definition won (p : Http.prog) : Prop :=
  ∃ payload, p = Http.respond 200 payload.





Fixpoint prefix_of (q s : string) : bool :=
  match q, s with
  | EmptyString, _ => true
  | String a q', String b s' => Ascii.eqb a b && prefix_of q' s'
  | String _ _, EmptyString => false
  end.

(** [q] occurs in [s]. *)
Fixpoint substring_of (q s : string) : bool :=
  prefix_of q s
  || match s with
     | EmptyString => false
     | String _ s' => substring_of q s'
     end.

(** Strictly ascending keys, of records and of books as sent. *)
Definition id_lt (a b : Z * Pg.row) : Prop := a.1 < b.1.

Definition ascending (bs : list Http.Book) : Prop :=
  StronglySorted (λ a b, Http.id a < Http.id b) bs.

(** [b] is how some record of the store is sent. *)
Definition shows (st : Pg.store) (b : Http.Book) : Prop :=
  ∃ i r, Pg.books st !! i = Some r ∧ b = Server.mapRow (i, r).

(** The characters LIKE does not take literally. *)
Definition wildcard (c : ascii) : bool :=
  Ascii.eqb c "%" || Ascii.eqb c "_" || Ascii.eqb c "\".

Fixpoint plain (q : string) : bool :=
  match q with
  | EmptyString => true
  | String c q' => negb (wildcard c) && plain q'
  end.

(** [q] occurs in [s], letter case apart. *)
Definition occurs_in (q : string) (s : string) : bool :=
  substring_of (Pg.lower q) (Pg.lower s).

(** The query occurs in the title, the author or the category, as the
    response shows them. *)
Definition matches (q : string) (b : Http.Book) : bool :=
  occurs_in q (Http.title b) || occurs_in q (Http.author b)
  || occurs_in q (Http.category b).

End Lifecycle.

(** ** Requests used in the scenarios below

    The secret is the default one: [process.env.ADMIN_KEY] is not set. *)

Module Scenario.
Import JS Http.

Definition with_header (b : value) (i : Z) : request :=
  {| x_admin_key := Some "admin123"; body := b; query := VObj []; params_id := i |}.

(** POST /api/books with the body [{"title": t}] *)
Definition create (t : string) : request :=
  with_header (VObj [("title", VStr t)]) 0.

(** POST /api/books with the body [{}] *)
Definition create_untitled : request := with_header (VObj []) 0.

(** POST /api/borrow/i with the body [{"borrower": who}] *)
Definition borrow (i : Z) (who : value) : request :=
  with_header (VObj [("borrower", who)]) i.

(** POST /api/return/i *)
Definition give_back (i : Z) : request := with_header (VObj []) i.

(** GET /api/books?q=q *)
Definition search (q : string) : request :=
  {| x_admin_key := None; body := VUndefined;
     query := VObj [("q", VStr q)]; params_id := 0 |}.

(** POST /api/books with no header and the body
    [{"adminKey": "admin123", "title": "Dune"}] *)
Definition create_key_in_body : request :=
  {| x_admin_key := None;
     body := VObj [("adminKey", VStr "admin123"); ("title", VStr "Dune")];
     query := VObj []; params_id := 0 |}.

(** The same create with a wrong key in the header: no title is needed to
    be turned away. *)
Definition create_wrong_key : request :=
  {| x_admin_key := Some "guess"; body := VObj [];
     query := VObj []; params_id := 0 |}.

Section stores.
Variable compound : value -> string.

(** One book, "Dune", created at time 1. *)
Definition server_one_book : Pg.store :=
  (run (Server.post_api_books None compound (create "Dune")) 1 Pg.ensureSchema).1.

Definition part000_one_book : Pg.store :=
  (run (Part000.post_api_books None compound (create "Dune")) 1 Pg.ensureSchema).1.

(** That book borrowed by "ann" at time 2 ... *)
Definition server_borrowed : Pg.store :=
  (run (Server.post_api_borrow_id None compound (borrow 1 (VStr "ann"))) 2
     server_one_book).1.

Definition part000_borrowed : Pg.store :=
  (run (Part000.post_api_borrow_id None compound (borrow 1 (VStr "ann"))) 2
     part000_one_book).1.

(** ... and returned at time 3. *)
Definition server_returned : Pg.store :=
  (run (Server.post_api_return_id None (give_back 1)) 3 server_borrowed).1.

Definition part000_returned : Pg.store :=
  (run (Part000.post_api_return_id None (give_back 1)) 3 part000_borrowed).1.

End stores.

(** No request of the scenarios has an array or an object among its
    statement parameters, so this text is never used. *)
Definition no_compound : value -> string := λ _, "{}".

(** PUT /api/books/1 with the body [{"author": "Frank Herbert"}] *)
Definition set_author : request :=
  with_header (VObj [("author", VStr "Frank Herbert")]) 1.

End Scenario.

(** ** Further vocabulary: the catalog as a whole *)

Module Catalog.
Import JS Http Lifecycle.

(** [st'] differs from [st] at most in the borrow columns of the record
    [id]: the keys, the sequence, every other record, and the title,
    author, category and description of that record are the same. *)
Definition lifecycle_only (id : Z) (st st' : Pg.store) : Prop :=
  Pg.books_id_seq st' = Pg.books_id_seq st
  ∧ (∀ j, j ≠ id -> Pg.books st' !! j = Pg.books st !! j)
  ∧ (Pg.books st !! id = None -> Pg.books st' !! id = None)
  ∧ ∀ r, Pg.books st !! id = Some r ->
      ∃ r', Pg.books st' !! id = Some r'
        ∧ Pg.title r' = Pg.title r
        ∧ Pg.author r' = Pg.author r
        ∧ Pg.category r' = Pg.category r
        ∧ Pg.description r' = Pg.description r.

(** A handler that has at most one statement to send. *)
Definition single_statement (p : prog) : Prop :=
  match p with
  | await_query _ k => ∀ r, answered (k r)
  | _ => True
  end.

(** The stores server.js can get to from [st0]. *)
Inductive reachable_from (env_ADMIN_KEY : option string)
    (compound : value -> string) (st0 : Pg.store) : Pg.store -> Prop :=
| from_here : reachable_from env_ADMIN_KEY compound st0 st0
| from_request st r req now :
    reachable_from env_ADMIN_KEY compound st0 st ->
    reachable_from env_ADMIN_KEY compound st0
      (run (Server.app env_ADMIN_KEY compound r req) now st).1.

(** The status codes a route of server.js has in its text. *)
Definition statuses (route : Server.route) : list Z :=
  match route with
  | Server.GET_api_books => [200; 500]
  | Server.POST_api_books => [200; 400; 401; 500]
  | Server.PUT_api_books_id | Server.DELETE_api_books_id => [200; 401; 404; 500]
  | Server.POST_api_borrow_id | Server.POST_api_return_id => [200; 400; 401; 500]
  end.

(** The three shapes of a record: never borrowed, borrowed, returned. *)
Definition never_borrowed (r : Pg.row) : Prop :=
  Pg.is_borrowed r = Some false ∧ Pg.borrower r = None
  ∧ Pg.borrowed_at r = None ∧ Pg.returned_at r = None.

Definition out_on_loan (r : Pg.row) : Prop :=
  Pg.is_borrowed r = Some true ∧ is_Some (Pg.borrower r)
  ∧ is_Some (Pg.borrowed_at r) ∧ Pg.returned_at r = None.

Definition given_back (r : Pg.row) : Prop :=
  Pg.is_borrowed r = Some false ∧ Pg.borrower r = Some ""
  ∧ is_Some (Pg.borrowed_at r) ∧ is_Some (Pg.returned_at r).

Definition shaped (st : Pg.store) : Prop :=
  ∀ id r, Pg.books st !! id = Some r ->
    never_borrowed r ∨ out_on_loan r ∨ given_back r.

(** The statements server.js sends: no borrow that keeps returned_at, and
    no borrow without a borrower. *)
Definition server_statement (q : Pg.statement) : Prop :=
  match q with
  | Pg.borrow_keeping _ _ => False
  | Pg.borrow_clearing _ who => is_Some who
  | _ => True
  end.

(** The programs of a list of requests to server.js. *)
Definition in_flight (env_ADMIN_KEY : option string)
    (compound : value -> string)
    (reqs : list (Server.route * request)) : list prog :=
  map (λ x, Server.app env_ADMIN_KEY compound x.1 x.2) reqs.

(** A handler stopped at a conditional change of the book [id] from the
    state [from] to the state [to]: run on a book in [from] the statement
    puts it in [to] and the handler wins; run on anything else it changes
    nothing and the handler answers [refusal]. *)
Definition attempt (from to : state) (refusal : prog) (id : Z) (p : prog) : Prop :=
  ∃ q k, p = await_query q k
    ∧ ∀ now s,
        (book_state s id = Some from ->
           book_state (Pg.exec q now s).1 id = Some to
           ∧ won (k (Pg.exec q now s).2))
        ∧ (book_state s id ≠ Some from ->
           (Pg.exec q now s).1 = s ∧ k (Pg.exec q now s).2 = refusal).

(** Where two such attempts can be: neither has run, one has run and won,
    or both have run. *)
Inductive race (from to : state) (refusal : prog) (id : Z) (p1 p2 : prog) :
    Pg.store * list prog -> Prop :=
| race_start s :
    book_state s id = Some from -> race from to refusal id p1 p2 (s, [p1; p2])
| race_first s t1 :
    book_state s id = Some to -> won t1 ->
    race from to refusal id p1 p2 (s, [t1; p2])
| race_second s t2 :
    book_state s id = Some to -> won t2 ->
    race from to refusal id p1 p2 (s, [p1; t2])
| race_over s t1 t2 :
    (won t1 ∧ t2 = refusal) ∨ (t1 = refusal ∧ won t2) ->
    race from to refusal id p1 p2 (s, [t1; t2]).

(** Two requests in flight together of which, however the store takes
    their statements, never both win, and once both have answered one has
    won and the other has been refused; and both can always be brought to
    answer. *)
Definition exactly_one_wins (refusal : prog) (st : Pg.store) (p1 p2 : prog) : Prop :=
  ∀ st' ts, rtc step (st, [p1; p2]) (st', ts) ->
    ∃ t1 t2, ts = [t1; t2]
      ∧ ¬ (won t1 ∧ won t2)
      ∧ (answered t1 -> answered t2 ->
         (won t1 ∧ t2 = refusal) ∨ (t1 = refusal ∧ won t2))
      ∧ ∃ st'' u1 u2, rtc step (st', ts) (st'', [u1; u2])
          ∧ answered u1 ∧ answered u2.

(** A statement that changes one record by its key: the update, the two
    borrows and the return. *)
Definition on_one_record (q : Pg.statement) : Prop :=
  match q with
  | Pg.update_fields _ _ _ _ _ | Pg.borrow_clearing _ _
  | Pg.borrow_keeping _ _ | Pg.return_id _ => True
  | _ => False
  end.

Definition return_refusal : prog :=
  respond 400 (error "not found or not borrowed").

End Catalog.

(** ** Further requests used at the end *)

Module Cases.
Import JS Http Scenario.

(** DELETE /api/books/i *)
Definition remove (i : Z) : request := with_header (VObj []) i.

(** POST /api/books with a title and no key anywhere. *)
Definition no_key : request :=
  {| x_admin_key := None; body := VObj [("title", VStr "Dune")];
     query := VObj []; params_id := 0 |}.

(** Two borrows of book 1, by "ann" and by "bob". *)
Definition two_borrows : list (Server.route * request) :=
  [(Server.POST_api_borrow_id, borrow 1 (VStr "ann"));
   (Server.POST_api_borrow_id, borrow 1 (VStr "bob"))].

End Cases.

(** ** What the store takes *)

Module Binding.
Import JS Http.

(** The store takes the text [p]: it is NULL, or it holds no character of
    code zero. *)
Definition takes (p : option string) : Prop :=
  Pg.refused (Pg.as_text p) = None.

(** The id of the request is a value of the type of the [id] column. *)
Definition id_fits (req : request) : Prop :=
  Pg.int4 (params_id req) = true.

(** server.js can turn the borrower of the request into text, and the
    store takes that text. *)
Definition server_borrower_taken (req : request) : Prop :=
  ∃ name,
    toString (or (prop "borrower" (body req)) (VStr "unknown")) = Some name
    ∧ takes (Some name).


(** The store takes the title, author, category and description of the
    body, as far as the body gives them. *)
Definition fields_taken (compound : value -> string) (req : request) : Prop :=
  takes (Pg.prepareValue compound (prop "title" (body req)))
  ∧ takes (Pg.prepareValue compound (prop "author" (body req)))
  ∧ takes (Pg.prepareValue compound (prop "category" (body req)))
  ∧ takes (Pg.prepareValue compound (prop "description" (body req))).

End Binding.

Arguments Pg.books : simpl never.
Arguments Pg.exec : simpl never.

(** ** Requests the store refuses *)

Module Refusals.
Import JS Http Scenario.

(** The least id above the range of the [id] column. *)
Definition beyond_int4 : Z := 2147483648.

(** The JavaScript string ["a\u0000"]. *)
Definition nul_name : string := String "a" (String Ascii.zero EmptyString).


(** PUT /api/books/i with the body [{"author": "a\u0000"}] *)
Definition set_author_nul (i : Z) : request :=
  with_header (VObj [("author", VStr nul_name)]) i.

(** PUT /api/books/i with the body [{"author": "Frank Herbert"}] *)
Definition set_author_at (i : Z) : request :=
  with_header (VObj [("author", VStr "Frank Herbert")]) i.

End Refusals.

(** * Properties *)

Import JS Http Lifecycle Binding.

(** ** The table and its keys *)

Section table.
Implicit Types (st : Pg.store) (r : Pg.row) (id : Z).

Lemma lookup_int4 st id r : Pg.books st !! id = Some r -> Pg.int4 id = true.
Proof. unfold Pg.books. by intros [_ H]%map_lookup_filter_Some. Qed.

Lemma books_with_row st id r :
  Pg.int4 id = true ->
  Pg.books (Pg.with_row id r st) = <[id := r]> (Pg.books st).
Proof. intros H. unfold Pg.books. simpl. by rewrite map_filter_insert_True. Qed.

Lemma lookup_with_row_eq st id r :
  Pg.int4 id = true -> Pg.books (Pg.with_row id r st) !! id = Some r.
Proof. intros H. by rewrite books_with_row, lookup_insert_eq. Qed.

Lemma lookup_with_row_ne st id j r :
  id ≠ j -> Pg.books (Pg.with_row id r st) !! j = Pg.books st !! j.
Proof.
  intros Hne. unfold Pg.books. simpl. apply option_eq. intros x.
  rewrite !map_lookup_filter_Some. by rewrite lookup_insert_ne.
Qed.

Lemma books_without_row st id :
  Pg.books (Pg.without_row id st) = delete id (Pg.books st).
Proof. unfold Pg.books. simpl. apply map_filter_delete. Qed.

(** A property of every row is kept when a row that has it is written,
    and when a row is removed. *)
Lemma with_row_rows (Q : Pg.row -> Prop) st id r :
  Q r -> (∀ j x, Pg.books st !! j = Some x -> Q x) ->
  ∀ j x, Pg.books (Pg.with_row id r st) !! j = Some x -> Q x.
Proof.
  intros Hr Hst j x. destruct (decide (id = j)) as [<-|Hne].
  - unfold Pg.books. simpl. intros [Hx _]%map_lookup_filter_Some.
    rewrite lookup_insert_eq in Hx. by injection Hx as <-.
  - rewrite lookup_with_row_ne by done. apply Hst.
Qed.

Lemma without_row_rows (Q : Pg.row -> Prop) st id :
  (∀ j x, Pg.books st !! j = Some x -> Q x) ->
  ∀ j x, Pg.books (Pg.without_row id st) !! j = Some x -> Q x.
Proof.
  intros Hst j x. rewrite books_without_row.
  destruct (decide (id = j)) as [<-|Hne].
  - by rewrite lookup_delete_eq.
  - rewrite lookup_delete_ne by done. apply Hst.
Qed.

Lemma exec_bound q now st :
  Pg.bind (Pg.parameters q) = None -> Pg.exec q now st = Pg.execute q now st.
Proof. unfold Pg.exec. by intros ->. Qed.

Lemma exec_refused q now st e :
  Pg.bind (Pg.parameters q) = Some e -> Pg.exec q now st = (st, Pg.Err e).
Proof. unfold Pg.exec. by intros ->. Qed.

Lemma exec_store_or_refused q now st :
  Pg.exec q now st = Pg.execute q now st
  ∨ ∃ e, Pg.exec q now st = (st, Pg.Err e).
Proof.
  unfold Pg.exec. destruct (Pg.bind _) as [e|]; [right; by exists e|by left].
Qed.

Lemma bind_id id : Pg.int4 id = true -> Pg.bind [Pg.as_integer id] = None.
Proof. simpl. by intros ->. Qed.

Lemma bind_id_text id p :
  Pg.int4 id = true -> takes p ->
  Pg.bind [Pg.as_integer id; Pg.as_text p] = None.
Proof. unfold takes. simpl. by intros -> ->. Qed.

Lemma bind_id_out id ps :
  Pg.int4 id = false ->
  Pg.bind (Pg.as_integer id :: ps) = Some numeric_value_out_of_range.
Proof. simpl. by intros ->. Qed.

Lemma bind_texts t a c d :
  takes t -> takes a -> takes c -> takes d ->
  Pg.bind [Pg.as_text t; Pg.as_text a; Pg.as_text c; Pg.as_text d] = None.
Proof. unfold takes. simpl. by intros -> -> -> ->. Qed.

Lemma takes_string s : takes (Some s) <-> Pg.has_nul s = false.
Proof. unfold takes. simpl. by destruct (Pg.has_nul s). Qed.

End table.

(** ** Conditional updates *)

Section conditional_update.
Implicit Types (st : Pg.store) (r : Pg.row) (id : Z).

Lemma update_where_hit id cond set st r :
  Pg.books st !! id = Some r -> cond r = true ->
  Pg.update_where id cond set st
  = (Pg.with_row id (set r) st,
     Pg.Ok {| Pg.rows := [(id, set r)]; Pg.rowCount := 1 |}).
Proof. intros Hr Hc. unfold Pg.update_where. by rewrite Hr, Hc. Qed.

Lemma update_where_miss id cond set st :
  (∀ r, Pg.books st !! id = Some r -> cond r = false) ->
  Pg.update_where id cond set st
  = (st, Pg.Ok {| Pg.rows := []; Pg.rowCount := 0 |}).
Proof.
  intros H. unfold Pg.update_where.
  destruct (Pg.books st !! id) as [r|] eqn:Hr; [|done].
  by rewrite (H r eq_refl).
Qed.

Lemma state_available st id :
  book_state st id = Some Available
  <-> ∃ r, Pg.books st !! id = Some r ∧ Pg.is_borrowed r = Some false.
Proof.
  unfold book_state, state_of. split.
  - destruct (Pg.books st !! id) as [r|]; [|done]. simpl.
    destruct (Pg.is_borrowed r) as [[]|] eqn:Hb; try done. eauto.
  - intros (r & -> & Hb). simpl. by rewrite Hb.
Qed.

Lemma state_borrowed st id :
  book_state st id = Some Borrowed
  <-> ∃ r, Pg.books st !! id = Some r ∧ Pg.is_borrowed r = Some true.
Proof.
  unfold book_state, state_of. split.
  - destruct (Pg.books st !! id) as [r|]; [|done]. simpl.
    destruct (Pg.is_borrowed r) as [[]|] eqn:Hb; try done. eauto.
  - intros (r & -> & Hb). simpl. by rewrite Hb.
Qed.

Lemma not_state_miss st id (b : bool) :
  book_state st id ≠ Some (if b then Borrowed else Available) ->
  ∀ r, Pg.books st !! id = Some r -> Pg.is_borrowed_eq b r = false.
Proof.
  unfold book_state, state_of, Pg.is_borrowed_eq. intros H r Hr.
  rewrite Hr in H. simpl in H.
  destruct (Pg.is_borrowed r) as [[]|], b; simpl; congruence.
Qed.

Lemma state_int4 st id s : book_state st id = Some s -> Pg.int4 id = true.
Proof.
  unfold book_state. destruct (Pg.books st !! id) as [r|] eqn:Hr; [|done].
  intros _. by eapply lookup_int4.
Qed.

(** The three statements on the borrow columns, once their parameters are
    bound, and when the id cannot be bound. *)
Lemma exec_return id now st :
  Pg.int4 id = true ->
  Pg.exec (Pg.return_id id) now st
  = Pg.update_where id (Pg.is_borrowed_eq true) (Pg.set_returned now) st.
Proof. intros H. by rewrite exec_bound by by apply bind_id. Qed.

Lemma exec_borrow_clearing id who now st :
  Pg.int4 id = true -> takes who ->
  Pg.exec (Pg.borrow_clearing id who) now st
  = Pg.update_where id (Pg.is_borrowed_eq false)
      (Pg.set_borrowed_clearing who now) st.
Proof. intros H Hw. by rewrite exec_bound by by apply bind_id_text. Qed.

Lemma exec_borrow_keeping id who now st :
  Pg.int4 id = true -> takes who ->
  Pg.exec (Pg.borrow_keeping id who) now st
  = Pg.update_where id (Pg.is_borrowed_eq false)
      (Pg.set_borrowed_keeping who now) st.
Proof. intros H Hw. by rewrite exec_bound by by apply bind_id_text. Qed.

End conditional_update.

(** ** Return *)

Section lifecycle.
Variable env_ADMIN_KEY : option string.
Variable compound : value -> string.

Abbreviation server_borrow := (Server.post_api_borrow_id env_ADMIN_KEY compound).
Abbreviation server_return := (Server.post_api_return_id env_ADMIN_KEY).
Abbreviation part000_borrow := (Part000.post_api_borrow_id env_ADMIN_KEY compound).
Abbreviation part000_return := (Part000.post_api_return_id env_ADMIN_KEY).

Lemma server_return_run req now st :
  Server.authorized env_ADMIN_KEY req ->
  run (server_return req) now st
  = let '(st', r) := Pg.exec (Pg.return_id (params_id req)) now st in
    run (Server.send_row_or 400 "not found or not borrowed" r) now st'.
Proof.
  intros Hk. unfold Server.post_api_return_id, Server.okAdmin.
  unfold Server.authorized in Hk. by rewrite Hk.
Qed.

Lemma part000_return_run req now st :
  Part000.authorized env_ADMIN_KEY req ->
  run (part000_return req) now st
  = let '(st', r) := Pg.exec (Pg.return_id (params_id req)) now st in
    run (Part000.send_row_or 400 "not found or not borrowed" r) now st'.
Proof.
  intros Hk. unfold Part000.post_api_return_id.
  unfold Part000.authorized in Hk. by rewrite Hk.
Qed.

(** A conditional change of one record, seen from the handler: the record
    is there and passes the condition exactly when the answer is 200, and
    then the record as changed is stored and shown. *)
Lemma conditional_effect st id (b : bool) (out : Pg.store * outcome)
    (set : Pg.row -> Pg.row) (shown : Z * Pg.row -> json) :
  (∀ r, Pg.books st !! id = Some r -> Pg.is_borrowed_eq b r = true ->
     out = (Pg.with_row id (set r) st, sent 200 (shown (id, set r)))) ->
  ((∀ r, Pg.books st !! id = Some r -> Pg.is_borrowed_eq b r = false) ->
     ¬ succeeded out.2) ->
  (book_state st id = Some (if b then Borrowed else Available)
   <-> succeeded out.2)
  ∧ ∀ r, Pg.books st !! id = Some r -> Pg.is_borrowed r = Some b ->
      Pg.books out.1 !! id = Some (set r)
      ∧ out.2 = sent 200 (shown (id, set r)).
Proof.
  intros Hhit Hmiss.
  assert (Hst : book_state st id = Some (if b then Borrowed else Available)
                <-> ∃ r, Pg.books st !! id = Some r ∧ Pg.is_borrowed r = Some b).
  { destruct b; [apply state_borrowed|apply state_available]. }
  split.
  - rewrite Hst. split.
    + intros (r & Hr & Hb). rewrite (Hhit r Hr); [by eexists|].
      unfold Pg.is_borrowed_eq. rewrite Hb. simpl. by destruct b.
    + intros Hout. destruct (Pg.books st !! id) as [r|] eqn:Hr.
      * destruct (Pg.is_borrowed r) as [b'|] eqn:Hb.
        -- destruct (decide (b' = b)) as [->|Hne]; [by eauto|].
           destruct Hmiss; [|done]. intros r' [= <-].
           unfold Pg.is_borrowed_eq. rewrite Hb. simpl.
           by destruct b', b.
        -- destruct Hmiss; [|done]. intros r' [= <-].
           unfold Pg.is_borrowed_eq. by rewrite Hb.
      * destruct Hmiss; [|done]. by intros r' [=].
  - intros r Hr Hb.
    rewrite (Hhit r Hr) by (unfold Pg.is_borrowed_eq; rewrite Hb; simpl;
                            by destruct b).
    simpl. split; [|done]. apply lookup_with_row_eq. by eapply lookup_int4.
Qed.

Lemma not_succeeded_400 msg : ¬ succeeded (sent 400 (error msg)).
Proof. by intros [payload [=]]. Qed.

Lemma not_succeeded_500 e : ¬ succeeded (sent 500 (error_of e)).
Proof. by intros [payload [=]]. Qed.

Lemma not_succeeded_nothing e : ¬ succeeded (nothing_sent e).
Proof. by intros [payload [=]]. Qed.

Lemma return_effect_of_exec st id now (shown : Z * Pg.row -> json)
    (out : Pg.store * outcome) :
  (∀ r, Pg.books st !! id = Some r -> Pg.is_borrowed_eq true r = true ->
     out = (Pg.with_row id (Pg.set_returned now r) st,
            sent 200 (shown (id, Pg.set_returned now r)))) ->
  ((∀ r, Pg.books st !! id = Some r -> Pg.is_borrowed_eq true r = false) ->
     ¬ succeeded out.2) ->
  return_effect st id now out shown.
Proof.
  intros Hhit Hmiss.
  destruct (conditional_effect st id true out _ shown Hhit Hmiss) as [Hiff Hdo].
  split; [done|]. intros r Hr Hb. destruct (Hdo r Hr Hb) as [Hr' Hout].
  exists (Pg.set_returned now r). unfold book_state. by rewrite Hr'.
Qed.

(** The return statement seen from either handler. *)
Lemma return_cases id now st :
  (∀ r, Pg.books st !! id = Some r -> Pg.is_borrowed_eq true r = true ->
     Pg.exec (Pg.return_id id) now st
     = (Pg.with_row id (Pg.set_returned now r) st,
        Pg.Ok {| Pg.rows := [(id, Pg.set_returned now r)]; Pg.rowCount := 1 |}))
  ∧ ((∀ r, Pg.books st !! id = Some r -> Pg.is_borrowed_eq true r = false) ->
     Pg.exec (Pg.return_id id) now st
     = (st, Pg.Ok {| Pg.rows := []; Pg.rowCount := 0 |})
     ∨ Pg.exec (Pg.return_id id) now st
       = (st, Pg.Err numeric_value_out_of_range)).
Proof.
  split.
  - intros r Hr Hb. rewrite exec_return by by eapply lookup_int4.
    by apply update_where_hit.
  - intros Hmiss. destruct (Pg.int4 id) eqn:Hid.
    + left. rewrite exec_return by done. by apply update_where_miss.
    + right. apply exec_refused. by apply bind_id_out.
Qed.

(** C4. A return succeeds exactly on a book that is there and Borrowed;
    it then makes the book Available, empties the borrower, stamps
    returned_at with the current time, leaves borrowed_at as it was, and
    answers with the record as updated: server.js with the book of that
    id, its catalogue fields as stored, not borrowed, no borrower, the
    time it had been borrowed at and the current time as the time of
    return; the second server with the row itself.  Both servers. *)
Theorem return_transition req now st :
  (Server.authorized env_ADMIN_KEY req ->
     return_effect st (params_id req) now (run (server_return req) now st)
       (λ r, book (Server.mapRow r))
     ∧ ∀ r, Pg.books st !! params_id req = Some r ->
         Pg.is_borrowed r = Some true ->
         (run (server_return req) now st).2
         = sent 200 (book {|
             id := params_id req;
             title := Pg.title r;
             author := default "" (Pg.author r);
             category := default "" (Pg.category r);
             description := default "" (Pg.description r);
             isBorrowed := false;
             borrower := "";
             borrowedAt := match Pg.borrowed_at r with
                           | Some t => iso t
                           | None => unset
                           end;
             returnedAt := iso now |}))
  ∧ (Part000.authorized env_ADMIN_KEY req ->
     return_effect st (params_id req) now (run (part000_return req) now st)
       raw_row).
Proof.
  destruct (return_cases (params_id req) now st) as [Hhit Hmiss].
  split; intros Hk.
  - rewrite server_return_run by done. split.
    + apply return_effect_of_exec.
      * intros r Hr Hb. by rewrite (Hhit r Hr Hb).
      * intros Hm. destruct (Hmiss Hm) as [-> | ->]; simpl;
          [apply not_succeeded_400|apply not_succeeded_500].
    + intros r Hr Hb. rewrite (Hhit r Hr); [done|].
      unfold Pg.is_borrowed_eq. by rewrite Hb.
  - rewrite part000_return_run by done.
    apply return_effect_of_exec.
    + intros r Hr Hb. by rewrite (Hhit r Hr Hb).
    + intros Hm. destruct (Hmiss Hm) as [-> | ->]; simpl;
        [apply not_succeeded_400|apply not_succeeded_nothing].
Qed.

(** ** Borrow *)

Lemma given_name_toString (given : option string) :
  toString (or (of_header given) (VStr "unknown")) = Some (recorded_name given).
Proof.
  destruct given as [s|]; [|done]. unfold or, recorded_name. simpl.
  by destruct (String.eqb s "").
Qed.

Lemma server_borrow_run req now st name :
  Server.authorized env_ADMIN_KEY req ->
  toString (or (prop "borrower" (body req)) (VStr "unknown")) = Some name ->
  run (server_borrow req) now st
  = let '(st', r) :=
      Pg.exec (Pg.borrow_clearing (params_id req) (Some name)) now st in
    run (Server.send_row_or 400 "not found or already borrowed" r) now st'.
Proof.
  intros Hk Hn. unfold Server.post_api_borrow_id, Server.okAdmin.
  unfold Server.authorized in Hk. by rewrite Hk, Hn.
Qed.

Lemma part000_borrow_run req now st :
  Part000.authorized env_ADMIN_KEY req ->
  run (part000_borrow req) now st
  = let '(st', r) :=
      Pg.exec (Pg.borrow_keeping (params_id req)
                 (Pg.prepareValue compound
                    (or (prop "borrower" (body req)) (VStr "unknown")))) now st in
    run (Part000.send_row_or 400 "not found or already borrowed" r) now st'.
Proof.
  intros Hk. unfold Part000.post_api_borrow_id.
  unfold Part000.authorized in Hk. by rewrite Hk.
Qed.

Lemma borrow_effect_of_exec st id now given who
    (set : Pg.row -> Pg.row) (shown : Z * Pg.row -> json)
    (out : Pg.store * outcome) :
  (∀ r, Pg.borrower (set r) = Some (recorded_name given)
        ∧ Pg.borrowed_at (set r) = Some now
        ∧ Pg.returned_at (set r) = who r
        ∧ Pg.is_borrowed (set r) = Some true) ->
  (∀ r, Pg.books st !! id = Some r -> Pg.is_borrowed_eq false r = true ->
     out = (Pg.with_row id (set r) st, sent 200 (shown (id, set r)))) ->
  ((∀ r, Pg.books st !! id = Some r -> Pg.is_borrowed_eq false r = false) ->
     ¬ succeeded out.2) ->
  (book_state st id = Some Available <-> succeeded out.2)
  ∧ ∀ r, Pg.books st !! id = Some r -> Pg.is_borrowed r = Some false ->
      ∃ r', Pg.books out.1 !! id = Some r'
        ∧ book_state out.1 id = Some Borrowed
        ∧ Pg.borrower r' = Some (recorded_name given)
        ∧ Pg.borrowed_at r' = Some now
        ∧ Pg.returned_at r' = who r
        ∧ out.2 = sent 200 (shown (id, r')).
Proof.
  intros Hset Hhit Hmiss.
  destruct (conditional_effect st id false out _ shown Hhit Hmiss) as [Hiff Hdo].
  split; [done|]. intros r Hr Hb. destruct (Hdo r Hr Hb) as [Hr' Hout].
  destruct (Hset r) as (H1 & H2 & H3 & H4).
  exists (set r). unfold book_state, state_of. rewrite Hr'. simpl.
  by rewrite H4.
Qed.

(** The borrow of server.js does what the specification asks of it, when
    the store takes the name; when it does not, an id of the column's
    type is answered 500 and nothing is changed. *)
Lemma server_borrow_transition req now st given :
  Server.authorized env_ADMIN_KEY req ->
  prop "borrower" (body req) = of_header given ->
  (takes (Some (recorded_name given)) ->
   borrow_effect st (params_id req) now given (run (server_borrow req) now st)
     (λ r, book (Server.mapRow r)))
  ∧ (¬ takes (Some (recorded_name given)) -> id_fits req ->
     run (server_borrow req) now st
     = (st, sent 500 (error_of character_not_in_repertoire))).
Proof.
  intros Hk Hg.
  rewrite (server_borrow_run _ _ _ (recorded_name given)) by
    (done || (rewrite Hg; apply given_name_toString)).
  set (id := params_id req). split.
  - intros Ht.
    apply (borrow_effect_of_exec st id now given (λ _, None)
             (Pg.set_borrowed_clearing (Some (recorded_name given)) now)).
    + done.
    + intros r Hr Hb.
      rewrite exec_borrow_clearing by (done || by eapply lookup_int4).
      by rewrite (update_where_hit _ _ _ _ r).
    + intros Hm. destruct (Pg.int4 id) eqn:Hid.
      * rewrite exec_borrow_clearing by done.
        rewrite update_where_miss by done. apply not_succeeded_400.
      * rewrite (exec_refused _ _ _ numeric_value_out_of_range)
          by by apply bind_id_out.
        apply not_succeeded_500.
  - intros Ht Hid. unfold id_fits in Hid. fold id in Hid.
    rewrite (exec_refused _ _ _ character_not_in_repertoire); [done|].
    simpl. rewrite Hid. rewrite takes_string in Ht.
    by destruct (Pg.has_nul (recorded_name given)).
Qed.

Lemma given_name_prepared (given : option string) :
  Pg.prepareValue compound (or (of_header given) (VStr "unknown"))
  = Some (recorded_name given).
Proof.
  destruct given as [s|]; [|done]. unfold or, recorded_name. simpl.
  by destruct (String.eqb s "").
Qed.

(** The borrow of the second server does the same, except that it leaves
    returned_at as it finds it; and a name the store does not take leaves
    the request without an answer. *)
Lemma part000_borrow_transition req now st given :
  Part000.authorized env_ADMIN_KEY req ->
  prop "borrower" (body req) = of_header given ->
  let id := params_id req in
  let out := run (part000_borrow req) now st in
  (takes (Some (recorded_name given)) ->
   (book_state st id = Some Available <-> succeeded out.2)
   ∧ ∀ r, Pg.books st !! id = Some r -> Pg.is_borrowed r = Some false ->
       ∃ r', Pg.books out.1 !! id = Some r'
         ∧ book_state out.1 id = Some Borrowed
         ∧ Pg.borrower r' = Some (recorded_name given)
         ∧ Pg.borrowed_at r' = Some now
         ∧ Pg.returned_at r' = Pg.returned_at r
         ∧ out.2 = sent 200 (raw_row (id, r')))
  ∧ (¬ takes (Some (recorded_name given)) -> id_fits req ->
     out = (st, nothing_sent character_not_in_repertoire)).
Proof.
  intros Hk Hg id out. subst out.
  rewrite part000_borrow_run by done. rewrite Hg, given_name_prepared.
  fold id. split.
  - intros Ht.
    apply (borrow_effect_of_exec st id now given Pg.returned_at
             (Pg.set_borrowed_keeping (Some (recorded_name given)) now)).
    + done.
    + intros r Hr Hb.
      rewrite exec_borrow_keeping by (done || by eapply lookup_int4).
      by rewrite (update_where_hit _ _ _ _ r).
    + intros Hm. destruct (Pg.int4 id) eqn:Hid.
      * rewrite exec_borrow_keeping by done.
        rewrite update_where_miss by done. apply not_succeeded_400.
      * rewrite (exec_refused _ _ _ numeric_value_out_of_range)
          by by apply bind_id_out.
        apply not_succeeded_nothing.
  - intros Ht Hid. unfold id_fits in Hid. fold id in Hid.
    rewrite (exec_refused _ _ _ character_not_in_repertoire); [done|].
    simpl. rewrite Hid. rewrite takes_string in Ht.
    by destruct (Pg.has_nul (recorded_name given)).
Qed.

(** ** Refused transitions *)




Lemma run_send_row_or_store send status msg r now st :
  send = Server.send_row_or ∨ send = Part000.send_row_or ->
  (run (send status msg r) now st).1 = st.
Proof.
  intros [-> | ->]; destruct r as [[[|x rows] n]|e]; done.
Qed.


End lifecycle.

(** ** Two borrows in flight *)

Section in_flight.
Variable id : Z.

Lemma won_answered p : won p -> answered p.
Proof. by intros [payload ->]. Qed.








End in_flight.

Section concurrent_borrow.
Variable env_ADMIN_KEY : option string.
Variable compound : value -> string.





End concurrent_borrow.

(** ** The access guard *)

Section access_guard.
Variable env_ADMIN_KEY : option string.
Variable compound : value -> string.

Abbreviation server := (Server.app env_ADMIN_KEY compound).

Lemma ADMIN_KEY_nonempty : Server.ADMIN_KEY env_ADMIN_KEY ≠ "".
Proof.
  unfold Server.ADMIN_KEY. destruct env_ADMIN_KEY as [s|]; [|done].
  destruct (String.eqb_spec s ""); done.
Qed.

(** Where [okAdmin] takes the key from: the header when it is there and
    not empty, else the body field when it is truthy, else the query
    parameter. *)
Lemma admin_key_precedence req :
  let header := of_header (x_admin_key req) in
  let field := prop "adminKey" (body req) in
  let param := prop "adminKey" (query req) in
  Server.admin_key req
  = if truthy header then header else if truthy field then field else param.
Proof. done. Qed.

Lemma okAdmin_refuses req rest :
  ¬ Server.authorized env_ADMIN_KEY req ->
  Server.okAdmin env_ADMIN_KEY req rest = respond 401 (error "unauthorized").
Proof.
  unfold Server.authorized, Server.okAdmin. intros Hk.
  by destruct (strict_eq_string _ _).
Qed.

Lemma okAdmin_admits req rest :
  Server.authorized env_ADMIN_KEY req ->
  Server.okAdmin env_ADMIN_KEY req rest = rest.
Proof. unfold Server.authorized, Server.okAdmin. by intros ->. Qed.

Lemma server_refuses r req :
  Server.mutating r = true ->
  ¬ Server.authorized env_ADMIN_KEY req ->
  server r req = respond 401 (error "unauthorized").
Proof.
  intros Hm Hk. destruct r; try done; simpl;
    unfold Server.post_api_books, Server.put_api_books_id,
      Server.delete_api_books_id, Server.post_api_borrow_id,
      Server.post_api_return_id; by apply okAdmin_refuses.
Qed.

(** C10. In server.js a mutating request whose key is not the secret is
    answered 401 "unauthorized" by a handler that has then done nothing
    else: it sends no statement, the store is as it was, and no other
    answer is possible; a create without a title is answered 401 too. *)
Theorem unauthorized_before_anything r req now st :
  Server.mutating r = true ->
  ¬ Server.authorized env_ADMIN_KEY req ->
  server r req = respond 401 (error "unauthorized")
  ∧ queries (server r req) now st = []
  ∧ run (server r req) now st = (st, sent 401 (error "unauthorized"))
  ∧ (r = Server.POST_api_books -> prop "title" (body req) = VUndefined ->
     (run (server r req) now st).2 ≠ sent 400 (error "title required")).
Proof.
  intros Hm Hk. rewrite server_refuses by done. by repeat split.
Qed.

End access_guard.

(** ** Update *)

Section update.
Variable env_ADMIN_KEY : option string.
Variable compound : value -> string.

Lemma prop_or_empty k b : prop k (or b (VObj [])) = prop k b.
Proof. unfold or. destruct b as [| |[]|n|s|xs|ps]; simpl; try done.
  - by destruct (Z.eqb n 0).
  - by destruct (String.eqb s "").
Qed.

Lemma refused_text p :
  ¬ takes p -> Pg.refused (Pg.as_text p) = Some character_not_in_repertoire.
Proof.
  unfold takes. destruct p as [s|]; [|done]. simpl.
  by destruct (Pg.has_nul s).
Qed.

Lemma takes_dec p : takes p ∨ ¬ takes p.
Proof. unfold takes. destruct (Pg.refused _); [by right|by left]. Qed.

Lemma bind_cons p ps :
  Pg.bind (p :: ps)
  = match Pg.refused p with Some e => Some e | None => Pg.bind ps end.
Proof. done. Qed.

Lemma bind_texts_refused t a c d :
  ¬ (takes t ∧ takes a ∧ takes c ∧ takes d) ->
  Pg.bind [Pg.as_text t; Pg.as_text a; Pg.as_text c; Pg.as_text d]
  = Some character_not_in_repertoire.
Proof.
  intros Hn. rewrite !bind_cons.
  destruct (takes_dec t) as [Ht|Ht]; [|by rewrite (refused_text t)].
  destruct (takes_dec a) as [Ha|Ha];
    [|by rewrite Ht, (refused_text a)].
  destruct (takes_dec c) as [Hc|Hc];
    [|by rewrite Ht, Ha, (refused_text c)].
  destruct (takes_dec d) as [Hd|Hd];
    [|by rewrite Ht, Ha, Hc, (refused_text d)].
  by destruct Hn.
Qed.

Lemma exec_update_fields id t a c d now st :
  Pg.int4 id = true -> takes t -> takes a -> takes c -> takes d ->
  Pg.exec (Pg.update_fields id t a c d) now st
  = Pg.update_where id (λ _, true) (Pg.set_fields t a c d) st.
Proof.
  intros Hid Ht Ha Hc Hd. apply exec_bound. simpl. rewrite Hid.
  by apply bind_texts.
Qed.

Lemma exec_update_store id t a c d now st :
  Pg.books st !! id = None ->
  (Pg.exec (Pg.update_fields id t a c d) now st).1 = st.
Proof.
  intros Hr.
  destruct (exec_store_or_refused (Pg.update_fields id t a c d) now st)
    as [-> | [e ->]]; [|done].
  simpl. rewrite update_where_miss; [done|]. intros r. by rewrite Hr.
Qed.

(** C8, as the code has it.  An update of a book that is there, with
    fields the store takes as text, changes, among title, author,
    category and description, only those the body supplies: a field left
    out keeps its value and a field given as a string takes it.  The key,
    the borrow columns and every other record are as before, and the
    answer is the record as updated.  An update of an id that is not
    there changes nothing, and answers 404 when the id is a value of the
    column's type and the store takes the fields.  An id outside that
    type, and a field the store does not take, are answered 500, and
    nothing is changed. *)
Theorem update_changes_only_supplied req now st :
  Server.authorized env_ADMIN_KEY req ->
  let id := params_id req in
  let field k := prop k (body req) in
  let out := run (Server.put_api_books_id env_ADMIN_KEY compound req) now st in
  (Pg.books st !! id = None -> out.1 = st)
  ∧ (id_fits req -> fields_taken compound req -> Pg.books st !! id = None ->
     out = (st, sent 404 (error "not found")))
  ∧ (¬ id_fits req ->
     out = (st, sent 500 (error_of numeric_value_out_of_range)))
  ∧ (id_fits req -> ¬ fields_taken compound req ->
     out = (st, sent 500 (error_of character_not_in_repertoire)))
  ∧ (fields_taken compound req ->
     ∀ r, Pg.books st !! id = Some r ->
      ∃ r',
        out.1 = Pg.with_row id r' st
        ∧ Pg.books out.1 !! id = Some r'
        ∧ (∀ j, j ≠ id -> Pg.books out.1 !! j = Pg.books st !! j)
        ∧ out.2 = sent 200 (book (Server.mapRow (id, r')))
        ∧ (Pg.is_borrowed r' = Pg.is_borrowed r
           ∧ Pg.borrower r' = Pg.borrower r
           ∧ Pg.borrowed_at r' = Pg.borrowed_at r
           ∧ Pg.returned_at r' = Pg.returned_at r)
        ∧ ((field "title" = VUndefined -> Pg.title r' = Pg.title r)
           ∧ (field "author" = VUndefined -> Pg.author r' = Pg.author r)
           ∧ (field "category" = VUndefined -> Pg.category r' = Pg.category r)
           ∧ (field "description" = VUndefined ->
              Pg.description r' = Pg.description r))
        ∧ ((∀ s, field "title" = VStr s -> Pg.title r' = s)
           ∧ (∀ s, field "author" = VStr s -> Pg.author r' = Some s)
           ∧ (∀ s, field "category" = VStr s -> Pg.category r' = Some s)
           ∧ (∀ s, field "description" = VStr s ->
              Pg.description r' = Some s))).
Proof.
  intros Hk id field out. subst out.
  unfold Server.put_api_books_id. rewrite okAdmin_admits by done.
  fold id. rewrite !prop_or_empty. unfold fields_taken, id_fits.
  fold id (field "title") (field "author")
    (field "category") (field "description").
  split; [|split; [|split; [|split]]].
  - intros Hr. simpl.
    pose proof (exec_update_store id
                  (Pg.prepareValue compound (field "title"))
                  (Pg.prepareValue compound (field "author"))
                  (Pg.prepareValue compound (field "category"))
                  (Pg.prepareValue compound (field "description"))
                  now st Hr) as He.
    destruct (Pg.exec _ now st) as [st' r]. simpl in He. subst st'.
    apply (run_send_row_or_store Server.send_row_or). by left.
  - intros Hid (Ht & Ha & Hc & Hd) Hr. simpl.
    rewrite exec_update_fields by done.
    by rewrite update_where_miss by (intros r; by rewrite Hr).
  - intros Hid. apply not_true_is_false in Hid. simpl.
    by rewrite (exec_refused _ _ _ numeric_value_out_of_range)
      by by apply bind_id_out.
  - intros Hid Hn. simpl.
    rewrite (exec_refused _ _ _ character_not_in_repertoire); [done|].
    simpl. rewrite Hid. by apply bind_texts_refused.
  - intros (Ht & Ha & Hc & Hd) r Hr. simpl.
    rewrite exec_update_fields by (done || by eapply lookup_int4).
    rewrite (update_where_hit _ _ _ _ r) by done.
    eexists. split; [done|]. simpl.
    split; [apply lookup_with_row_eq; by eapply lookup_int4|].
    split; [intros j Hj; by apply lookup_with_row_ne|].
    split; [done|]. split; [done|]. simpl.
    split; repeat split; (intros -> || intros s ->); done.
Qed.

End update.
(** ** What every run preserves *)

Section invariants.
Variable P : Pg.store -> Prop.
Hypothesis exec_preserves : ∀ q now st, P st -> P (Pg.exec q now st).1.

Lemma run_preserves p now st : P st -> P (run p now st).1.
Proof.
  revert st. induction p as [status payload|e|q k IH]; intros st Hst; try done.
  simpl. pose proof (exec_preserves q now st Hst) as Hq.
  destruct (Pg.exec q now st) as [st' r]. by apply IH.
Qed.

End invariants.

Lemma update_where_ids_below id cond set st :
  ids_below_seq st -> ids_below_seq (Pg.update_where id cond set st).1.
Proof.
  intros Hst. unfold Pg.update_where.
  destruct (Pg.books st !! id) as [r|] eqn:Hr; [|done].
  destruct (cond r); [|done]. intros j r'. simpl.
  destruct (decide (id = j)) as [<-|Hne].
  - intros _. by apply (Hst id r).
  - rewrite lookup_with_row_ne by done. apply Hst.
Qed.

Lemma books_inserted id r st :
  Pg.int4 id = true ->
  Pg.books (Pg.with_row id r (Pg.advanced st)) = <[id := r]> (Pg.books st).
Proof. intros Hid. by rewrite books_with_row. Qed.

Lemma insert_ids_below t a c d st :
  ids_below_seq st -> ids_below_seq (Pg.insert t a c d st).1.
Proof.
  intros Hst. unfold Pg.insert.
  destruct (Pg.int4 (Pg.books_id_seq st)) eqn:Hseq; [|done]. simpl.
  destruct t as [t|]; [destruct (Pg.books st !! Pg.books_id_seq st)|];
    intros j r'; simpl.
  - intros Hj%Hst. lia.
  - rewrite books_inserted by done.
    destruct (decide (Pg.books_id_seq st = j)) as [<-|Hne]; [lia|].
    rewrite lookup_insert_ne by done. intros Hj%Hst. lia.
  - intros Hj%Hst. lia.
Qed.

Lemma execute_ids_below q now st :
  ids_below_seq st -> ids_below_seq (Pg.execute q now st).1.
Proof.
  intros Hst.
  destruct q as [|p|t a c d|t a c d|i t a c d|i|i w|i w|i]; simpl;
    try done; try apply update_where_ids_below;
    try apply insert_ids_below; try done.
  destruct (Pg.books st !! i) as [r|] eqn:Hr; [|done].
  intros j r'. simpl. rewrite books_without_row.
  destruct (decide (i = j)) as [<-|Hne].
  - by rewrite lookup_delete_eq.
  - rewrite lookup_delete_ne by done. apply Hst.
Qed.

Lemma exec_ids_below q now st :
  ids_below_seq st -> ids_below_seq (Pg.exec q now st).1.
Proof.
  intros Hst. destruct (exec_store_or_refused q now st) as [-> | [e ->]];
    [by apply execute_ids_below|done].
Qed.

Lemma server_reachable_ids_below env compound st :
  Server.reachable env compound st -> ids_below_seq st.
Proof.
  induction 1 as [|st r req now _ IH]; [by intros id r|].
  by apply run_preserves; [apply exec_ids_below|].
Qed.

Lemma part000_reachable_ids_below env compound st :
  Part000.reachable env compound st -> ids_below_seq st.
Proof.
  induction 1 as [|st r req now _ IH]; [by intros id r|].
  by apply run_preserves; [apply exec_ids_below|].
Qed.

(** ** Create *)

Section create.
Variable env_ADMIN_KEY : option string.
Variable compound : value -> string.

Lemma takes_or_default v :
  takes (Pg.prepareValue compound v) ->
  takes (Pg.prepareValue compound (or_default v (VStr ""))).
Proof. by destruct v. Qed.

Lemma not_takes_or_default v :
  ¬ takes (Pg.prepareValue compound v) ->
  ¬ takes (Pg.prepareValue compound (or_default v (VStr ""))).
Proof. intros H. by destruct v. Qed.

Lemma exec_insert_false t a c d now st :
  takes t -> takes a -> takes c -> takes d ->
  Pg.exec (Pg.insert_false t a c d) now st = Pg.insert t a c d st.
Proof. intros Ht Ha Hc Hd. apply exec_bound. by apply bind_texts. Qed.

(** The create of server.js does what the specification asks of it: no
    title, or an empty one, is answered 400 and nothing is stored; any
    other title, when the store takes the fields as text and the sequence
    of keys is not used up, is stored under a key no record has, not
    borrowed, with the fields the body leaves out empty, and that record
    is the answer.  A field the store does not take, and a sequence that
    is used up, are answered 500, and nothing is stored. *)
Lemma server_create req now st :
  Server.reachable env_ADMIN_KEY compound st ->
  Server.authorized env_ADMIN_KEY req ->
  let field k := prop k (body req) in
  let out := run (Server.post_api_books env_ADMIN_KEY compound req) now st in
  (field "title" = VUndefined ∨ field "title" = VNull ∨ field "title" = VStr "" ->
   out = (st, sent 400 (error "title required")))
  ∧ ∀ t, field "title" = VStr t -> t ≠ "" ->
      (fields_taken compound req -> Pg.int4 (Pg.books_id_seq st) = true ->
       ∃ id r,
        Pg.books st !! id = None
        ∧ Pg.books out.1 = <[id := r]> (Pg.books st)
        ∧ out.2 = sent 200 (book (Server.mapRow (id, r)))
        ∧ Pg.title r = t
        ∧ isBorrowed (Server.mapRow (id, r)) = false
        ∧ (field "author" = VUndefined -> author (Server.mapRow (id, r)) = "")
        ∧ (field "category" = VUndefined -> category (Server.mapRow (id, r)) = "")
        ∧ (field "description" = VUndefined ->
           description (Server.mapRow (id, r)) = ""))
      ∧ (¬ fields_taken compound req ->
         out = (st, sent 500 (error_of character_not_in_repertoire)))
      ∧ (fields_taken compound req -> Pg.int4 (Pg.books_id_seq st) = false ->
         out = (st, sent 500 (error_of sequence_generator_limit_exceeded))).
Proof.
  intros Hst Hk field out. subst out.
  unfold Server.post_api_books. rewrite okAdmin_admits by done.
  rewrite !prop_or_empty. unfold fields_taken.
  fold (field "title") (field "author") (field "category") (field "description").
  split.
  - by intros [-> | [-> | ->]].
  - intros t -> Ht. simpl.
    destruct (String.eqb_spec t ""); [done|]. simpl.
    split; [|split].
    + intros (Htt & Ha & Hc & Hd) Hseq.
      rewrite exec_insert_false by (done || by apply takes_or_default).
      assert (Hfresh : Pg.books st !! Pg.books_id_seq st = None).
      { destruct (Pg.books st !! Pg.books_id_seq st) as [r|] eqn:Hr; [|done].
        apply (server_reachable_ids_below _ _ _ Hst) in Hr. lia. }
      unfold Pg.insert. rewrite Hseq, Hfresh. simpl.
      eexists _, _. split; [done|].
      split; [by apply books_inserted|]. split; [done|].
      split; [done|]. split; [done|]. simpl.
      repeat split; by intros ->.
    + intros Hn.
      rewrite (exec_refused _ _ _ character_not_in_repertoire); [done|].
      apply bind_texts_refused. intros (Htt & Ha & Hc & Hd). apply Hn.
      split; [done|].
      split; [|split]; apply dec_stable; intros Hx;
        by apply not_takes_or_default in Hx.
    + intros (Htt & Ha & Hc & Hd) Hseq.
      rewrite exec_insert_false by (done || by apply takes_or_default).
      unfold Pg.insert. by rewrite Hseq.
Qed.

End create.

(** ** Where the code departs from the specification *)

Section departures.
Import Scenario.
Variable compound : value -> string.

Lemma server_one_book_reachable :
  Server.reachable None compound (server_one_book compound).
Proof.
  apply (Server.reach_request None compound _ Server.POST_api_books
           (create "Dune") 1), Server.reach_start.
Qed.

Lemma part000_returned_reachable :
  Part000.reachable None compound (part000_returned compound).
Proof.
  apply (Part000.reach_request None compound _ Part000.POST_api_return_id
           (give_back 1) 3).
  apply (Part000.reach_request None compound _ Part000.POST_api_borrow_id
           (borrow 1 (VStr "ann")) 2).
  apply (Part000.reach_request None compound _ Part000.POST_api_books
           (create "Dune") 1), Part000.reach_start.
Qed.

(** C1, second server.  A book is created, borrowed, and returned at time
    3.  Borrowed again at time 4 by "bob", it is Borrowed and still
    carries returned_at = 3: the statement of the second server has no
    [returned_at=null].  On the same requests server.js leaves the column
    NULL. *)
Theorem part000_borrow_keeps_returned_at :
  let again := borrow 1 (VStr "bob") in
  let out := run (Part000.post_api_borrow_id None compound again) 4
               (part000_returned compound) in
  let out' := run (Server.post_api_borrow_id None compound again) 4
                (server_returned compound) in
  Part000.reachable None compound (part000_returned compound)
  ∧ book_state (part000_returned compound) 1 = Some Available
  ∧ (∃ r, out.2 = sent 200 (raw_row (1, r))
        ∧ Pg.books out.1 !! 1 = Some r
        ∧ Pg.is_borrowed r = Some true
        ∧ Pg.borrower r = Some "bob"
        ∧ Pg.returned_at r = Some 3)
  ∧ (∃ r, Pg.books out'.1 !! 1 = Some r
        ∧ Pg.is_borrowed r = Some true
        ∧ Pg.returned_at r = None).
Proof.
  split; [apply part000_returned_reachable|]. split; [done|].
  split; by eexists.
Qed.

(** C7, second server.  A create whose title is the empty string stores a
    record with that title and answers 200 with it; a create without any
    title is rejected by the store and never answered.  server.js answers
    both with 400 "title required" and stores nothing. *)
Theorem part000_create_accepts_empty_title :
  let out := run (Part000.post_api_books None compound (create "")) 1
               Pg.ensureSchema in
  Part000.authorized None (create "")
  ∧ (∃ r, out.2 = sent 200 (raw_row (1, r))
        ∧ Pg.books out.1 !! 1 = Some r
        ∧ Pg.title r = "")
  ∧ (run (Part000.post_api_books None compound create_untitled) 1
       Pg.ensureSchema).2 = nothing_sent not_null_violation
  ∧ run (Server.post_api_books None compound (create "")) 1 Pg.ensureSchema
    = (Pg.ensureSchema, sent 400 (error "title required"))
  ∧ run (Server.post_api_books None compound create_untitled) 1 Pg.ensureSchema
    = (Pg.ensureSchema, sent 400 (error "title required")).
Proof. split; [done|]. split; [by eexists|done]. Qed.

(** C9, second server.  A create that carries the secret in the body field
    adminKey and no header is answered 401: the second server reads the
    header only.  server.js lets the same request through. *)
Theorem part000_reads_header_only :
  Server.admin_key create_key_in_body = VStr (Server.ADMIN_KEY None)
  ∧ run (Part000.post_api_books None compound create_key_in_body) 1
      Pg.ensureSchema
    = (Pg.ensureSchema, sent 401 (error "unauthorized"))
  ∧ ∃ b, (run (Server.post_api_books None compound create_key_in_body) 1
            Pg.ensureSchema).2 = sent 200 (book b)
      ∧ title b = "Dune".
Proof. split; [done|]. split; [done|]. by eexists. Qed.

(** C5.  In server.js a borrow whose body gives the borrower as an empty
    array is let through, because an array is truthy, and records the
    text of the array, which is empty: the book is Borrowed with an empty
    borrower, in the store and in the answer. *)
Theorem borrowed_with_empty_borrower :
  let req := borrow 1 (VArr []) in
  let out := run (Server.post_api_borrow_id None compound req) 2
               (server_one_book compound) in
  Server.reachable None compound out.1
  ∧ ∃ r b, Pg.books out.1 !! 1 = Some r
      ∧ Pg.is_borrowed r = Some true
      ∧ Pg.borrower r = Some ""
      ∧ ¬ consistent r
      ∧ out.2 = sent 200 (book b)
      ∧ isBorrowed b = true
      ∧ borrower b = "".
Proof.
  split.
  - apply (Server.reach_request None compound _ Server.POST_api_borrow_id
             (borrow 1 (VArr [])) 2), server_one_book_reachable.
  - eexists _, _. split; [done|]. split; [done|]. split; [done|].
    split; [|done]. by intros [[? _]|[_ ?]].
Qed.

(** C6.  In server.js the query "_" is answered with the book "Dune",
    whose title, author and category hold no underscore: the query is put
    into the LIKE pattern as it is, and there [_] stands for any one
    character.  The second server answers every query with all the
    books. *)
Theorem search_takes_query_as_pattern :
  let st := server_one_book compound in
  (∃ b, run (Server.get_api_books (search "_")) 2 st
        = (st, sent 200 (book_list [b]))
      ∧ title b = "Dune"
      ∧ matches "_" b = false)
  ∧ (∃ r, run (Part000.get_api_books (search "tolkien")) 2
            (part000_one_book compound)
          = (part000_one_book compound, sent 200 (raw_rows [(1, r)]))
        ∧ Pg.title r = "Dune").
Proof. split; by eexists. Qed.

End departures.

(** ** server.js: the guard decides, and only for mutations *)

Section guard_decides.
Variable env_ADMIN_KEY : option string.
Variable compound : value -> string.

Abbreviation server := (Server.app env_ADMIN_KEY compound).

(** A handler of server.js past its guard never answers 401. *)
Lemma server_past_guard r req now st payload :
  (Server.mutating r = true -> Server.authorized env_ADMIN_KEY req) ->
  (run (server r req) now st).2 ≠ sent 401 payload.
Proof.
  intros Hk.
  assert (Hfirst : ∀ rows s, (run (Server.send_first rows) now s).2
                             ≠ sent 401 payload).
  { by intros [|x rows] s. }
  assert (Hrow : ∀ status msg rep s, status ≠ 401 ->
            (run (Server.send_row_or status msg rep) now s).2 ≠ sent 401 payload).
  { intros status msg [[[|x rows] n]|e] s Hs; simpl; congruence. }
  destruct r; simpl;
    unfold Server.get_api_books, Server.post_api_books,
      Server.put_api_books_id, Server.delete_api_books_id,
      Server.post_api_borrow_id, Server.post_api_return_id;
    rewrite ?okAdmin_admits by (by apply Hk).
  - destruct (toString _); [|done].
    destruct (negb _); simpl; [|done].
    destruct (Pg.exec _ _ _) as [s' [res|e]]; done.
  - destruct (negb _); [done|]. simpl.
    destruct (Pg.exec _ _ _) as [s' [res|e]]; [apply Hfirst|done].
  - simpl. destruct (Pg.exec _ _ _) as [s' rep]. by apply Hrow.
  - simpl. destruct (Pg.exec _ _ _) as [s' [[rows [|n]]|e]]; done.
  - destruct (toString _); [|done]. simpl.
    destruct (Pg.exec _ _ _) as [s' rep]. by apply Hrow.
  - simpl. destruct (Pg.exec _ _ _) as [s' rep]. by apply Hrow.
Qed.

(** The guard of server.js does what the specification asks of it: the
    key is the header, else the body field, else the query parameter; a
    mutating request goes on exactly when that key is the secret, and is
    otherwise answered 401 "unauthorized"; the list needs no key. *)
Lemma server_guard_decides r req now st :
  let header := of_header (x_admin_key req) in
  let field := prop "adminKey" (body req) in
  let param := prop "adminKey" (query req) in
  let key := if truthy header then header
             else if truthy field then field else param in
  let out := run (server r req) now st in
  (Server.mutating r = true ->
     (key = VStr (Server.ADMIN_KEY env_ADMIN_KEY) ->
        ∀ payload, out.2 ≠ sent 401 payload)
     ∧ (key ≠ VStr (Server.ADMIN_KEY env_ADMIN_KEY) ->
        out = (st, sent 401 (error "unauthorized"))))
  ∧ (Server.mutating r = false -> ∀ payload, out.2 ≠ sent 401 payload).
Proof.
  intros header field param key out. subst out.
  assert (Hauth : Server.authorized env_ADMIN_KEY req
                  <-> key = VStr (Server.ADMIN_KEY env_ADMIN_KEY)).
  { unfold Server.authorized. rewrite admin_key_precedence.
    fold header field param key. unfold strict_eq_string.
    destruct key as [| |b|n|s|xs|ps]; try (split; congruence).
    destruct (String.eqb_spec s (Server.ADMIN_KEY env_ADMIN_KEY));
      split; congruence. }
  split.
  - intros Hm. split.
    + intros Hkey payload. apply server_past_guard. by rewrite Hauth.
    + intros Hkey. rewrite <- Hauth in Hkey.
      by rewrite server_refuses.
  - intros Hm payload. apply server_past_guard. congruence.
Qed.

End guard_decides.

(** ** LIKE on a pattern without wildcards *)

Section like_plain.

Lemma like_percent_rest p s :
  Pg.like (String "%" p) s
  = Pg.like p s || match s with
                   | EmptyString => false
                   | String _ s' => Pg.like (String "%" p) s'
                   end.
Proof. by destruct s. Qed.

Lemma like_percent s : Pg.like "%" s = true.
Proof. induction s as [|a s IH]; [done|]. by rewrite like_percent_rest, IH. Qed.

Lemma like_plain_char c p s :
  wildcard c = false ->
  Pg.like (String c p) s
  = match s with
    | EmptyString => false
    | String a s' => Ascii.eqb a c && Pg.like p s'
    end.
Proof.
  unfold wildcard. intros Hc. simpl.
  destruct (Ascii.eqb c "%"), (Ascii.eqb c "_"), (Ascii.eqb c "\"); done.
Qed.

Lemma like_plain_prefix q s :
  plain q = true -> Pg.like (q +:+ "%") s = prefix_of q s.
Proof.
  revert s. induction q as [|c q IH]; intros s Hq.
  - apply like_percent.
  - simpl in Hq. apply andb_prop in Hq as [Hc Hq].
    apply negb_true_iff in Hc.
    change (String c q +:+ "%") with (String c (q +:+ "%")).
    rewrite like_plain_char by done. destruct s as [|a s]; [done|].
    simpl. by rewrite IH, Ascii.eqb_sym.
Qed.

Lemma like_contains q s :
  plain q = true -> Pg.like ("%" +:+ q +:+ "%") s = substring_of q s.
Proof.
  intros Hq. change ("%" +:+ q +:+ "%") with (String "%" (q +:+ "%")).
  induction s as [|a s IH].
  - rewrite like_percent_rest, like_plain_prefix by done. simpl.
    by destruct (prefix_of q "").
  - rewrite like_percent_rest, like_plain_prefix, IH by done. done.
Qed.

Lemma lower_append a b : Pg.lower (a +:+ b) = Pg.lower a +:+ Pg.lower b.
Proof. induction a as [|c a IH]; [done|]. simpl. by rewrite IH. Qed.

Lemma wildcard_lower c : wildcard (Pg.lower_ascii c) = wildcard c.
Proof. by destruct c as [[] [] [] [] [] [] [] []]. Qed.

Lemma plain_lower q : plain (Pg.lower q) = plain q.
Proof.
  induction q as [|c q IH]; [done|]. simpl. by rewrite wildcard_lower, IH.
Qed.

Lemma lower_nonempty q : q ≠ "" -> Pg.lower q ≠ "".
Proof. by destruct q. Qed.

Lemma substring_of_empty q : q ≠ "" -> substring_of q "" = false.
Proof. by destruct q. Qed.

(** For a query without wildcards the WHERE clause selects the records
    the query occurs in. *)
Lemma where_like_plain q x :
  plain q = true -> q ≠ "" ->
  Pg.where_like ("%" +:+ q +:+ "%") x.2 = matches q (Server.mapRow x).
Proof.
  intros Hq Hne.
  assert (Hcol : ∀ col, Pg.col_like col ("%" +:+ q +:+ "%")
                        = occurs_in q (default "" col)).
  { intros [s|]; unfold Pg.col_like, occurs_in; simpl.
    - rewrite !lower_append. apply like_contains. by rewrite plain_lower.
    - symmetry. by apply substring_of_empty, lower_nonempty. }
  unfold Pg.where_like, matches. rewrite !Hcol. done.
Qed.

End like_plain.

(** ** List and search in server.js *)

Section list_books.

#[local] Instance id_le_total : Total Pg.id_le.
Proof. intros a b. unfold Pg.id_le. lia. Qed.

#[local] Instance id_le_trans : Transitive Pg.id_le.
Proof. intros a b c. unfold Pg.id_le. lia. Qed.

Lemma ascending_strict (l : list (Z * Pg.row)) :
  StronglySorted Pg.id_le l -> NoDup l.*1 -> StronglySorted id_lt l.
Proof.
  induction l as [|x l IH]; [constructor|].
  rewrite StronglySorted_cons. simpl. rewrite NoDup_cons.
  intros [Hx Hl] [Hnx Hnl]. constructor; [by apply IH|].
  rewrite Forall_forall in Hx |- *. intros y Hy.
  specialize (Hx y Hy). unfold Pg.id_le in Hx. unfold id_lt.
  assert (x.1 ≠ y.1); [|lia].
  intros Heq. apply Hnx. rewrite Heq. by apply list_elem_of_fmap_2.
Qed.

Lemma ascending_filter (P : Z * Pg.row -> Prop) `{∀ x, Decision (P x)} l :
  StronglySorted id_lt l -> StronglySorted id_lt (filter P l).
Proof.
  induction l as [|x l IH]; [done|].
  rewrite StronglySorted_cons. intros [Hx Hl]. rewrite filter_cons.
  destruct (decide (P x)); [|by apply IH].
  constructor; [by apply IH|].
  rewrite Forall_forall in Hx |- *. intros y [_ Hy]%list_elem_of_filter.
  by apply Hx.
Qed.

(** [order by id asc] yields every record once, keys strictly ascending. *)
Lemma order_by_id_spec (t : gmap Z Pg.row) :
  StronglySorted id_lt (Pg.order_by_id t)
  ∧ ∀ i r, (i, r) ∈ Pg.order_by_id t <-> t !! i = Some r.
Proof.
  unfold Pg.order_by_id. split.
  - apply ascending_strict; [apply StronglySorted_merge_sort; apply _|].
    rewrite merge_sort_Permutation. apply NoDup_fst_map_to_list.
  - intros i r. rewrite merge_sort_Permutation. apply elem_of_map_to_list.
Qed.

Lemma sent_ascending (l : list (Z * Pg.row)) :
  StronglySorted id_lt l -> ascending (map Server.mapRow l).
Proof. intros Hl. by apply (StronglySorted_fmap _ id_lt). Qed.

(** The list of server.js: a query that is absent, empty or blank is
    answered 200 with all the books in ascending order of id, also when
    there is none. *)
Lemma server_list_all req now st s :
  toString (or (prop "q" (query req)) (VStr "")) = Some s ->
  trim s = "" ->
  ∃ bs, run (Server.get_api_books req) now st = (st, sent 200 (book_list bs))
    ∧ ascending bs
    ∧ ∀ b, b ∈ bs <-> shows st b.
Proof.
  intros Hs Hq. unfold Server.get_api_books. rewrite Hs, Hq. simpl.
  destruct (order_by_id_spec (Pg.books st)) as [Hsorted Hin].
  eexists. split; [done|]. split; [by apply sent_ascending|].
  intros b. rewrite list_elem_of_fmap. unfold shows. split.
  - intros ([i r] & -> & Hx). exists i, r. by rewrite <- Hin.
  - intros (i & r & Hr & ->). exists (i, r). by rewrite Hin.
Qed.

Lemma has_nul_append a b :
  Pg.has_nul (a +:+ b) = Pg.has_nul a || Pg.has_nul b.
Proof.
  induction a as [|c a IH]; [done|]. simpl. rewrite IH.
  by destruct (Ascii.eqb c zero).
Qed.

Lemma has_nul_pattern q : Pg.has_nul ("%" +:+ q +:+ "%") = Pg.has_nul q.
Proof.
  rewrite !has_nul_append. simpl. by destruct (Pg.has_nul q).
Qed.

Lemma exec_select_like p now st :
  Pg.has_nul p = false ->
  Pg.exec (Pg.select_like p) now st
  = (st, Pg.Ok {| Pg.rows := filter (λ x, Pg.where_like p x.2 = true)
                               (Pg.order_by_id (Pg.books st));
                  Pg.rowCount :=
                    List.length (filter (λ x, Pg.where_like p x.2 = true)
                                   (Pg.order_by_id (Pg.books st))) |}).
Proof. intros Hp. rewrite exec_bound; [done|]. simpl. by rewrite Hp. Qed.

Lemma exec_select_like_refused p now st :
  Pg.has_nul p = true ->
  Pg.exec (Pg.select_like p) now st
  = (st, Pg.Err character_not_in_repertoire).
Proof. intros Hp. apply exec_refused. simpl. by rewrite Hp. Qed.

(** The search of server.js on a query without wildcards: when the
    trimmed query holds no character of code zero, the answer is 200 with
    exactly the books it occurs in, in ascending order of id; when it
    holds one, the answer is 500. *)
Lemma server_search_plain req now st s :
  prop "q" (query req) = VStr s ->
  trim s ≠ "" -> plain (trim s) = true ->
  (Pg.has_nul (trim s) = false ->
   ∃ bs, run (Server.get_api_books req) now st = (st, sent 200 (book_list bs))
     ∧ ascending bs
     ∧ ∀ b, b ∈ bs <-> matches (trim s) b = true ∧ shows st b)
  ∧ (Pg.has_nul (trim s) = true ->
     run (Server.get_api_books req) now st
     = (st, sent 500 (error_of character_not_in_repertoire))).
Proof.
  intros Hs Hq Hplain. unfold Server.get_api_books. rewrite Hs.
  assert (Hstr : toString (or (VStr s) (VStr "")) = Some s).
  { unfold or. simpl. by destruct (String.eqb_spec s ""); subst. }
  rewrite Hstr. destruct (String.eqb_spec (trim s) ""); [done|].
  cbn [negb run]. split.
  - intros Hnul.
    rewrite exec_select_like by by rewrite has_nul_pattern.
    destruct (order_by_id_spec (Pg.books st)) as [Hsorted Hin].
    eexists. split; [done|].
    split; [by apply sent_ascending, ascending_filter|].
    intros b. rewrite list_elem_of_fmap. unfold shows. split.
    + intros ([i r] & -> & [Hm Hx]%list_elem_of_filter).
      rewrite where_like_plain in Hm by done. split; [done|].
      exists i, r. by rewrite <- Hin.
    + intros (Hm & i & r & Hr & ->). exists (i, r). split; [done|].
      apply list_elem_of_filter. rewrite where_like_plain by done.
      by rewrite Hin.
  - intros Hnul.
    by rewrite exec_select_like_refused by by rewrite has_nul_pattern.
Qed.

End list_books.

(** ** The borrower invariant, for borrowers given as text *)

Section borrower_invariant.
Variable env_ADMIN_KEY : option string.
Variable compound : value -> string.

Lemma run_preserves_sending (P : Pg.store -> Prop) (ok : Pg.statement -> Prop) :
  (∀ q now st, ok q -> P st -> P (Pg.exec q now st).1) ->
  ∀ p now st, sends_only ok p -> P st -> P (run p now st).1.
Proof.
  intros Hexec p now. induction p as [status payload|e|q k IH];
    intros st Hp Hst; try done.
  simpl in *. destruct Hp as [Hq Hk].
  pose proof (Hexec q now st Hq Hst) as Hst'.
  destruct (Pg.exec q now st) as [st' r]. by apply IH.
Qed.

Lemma insert_consistent i r st :
  consistent r -> all_consistent st ->
  all_consistent (Pg.with_row i r st).
Proof. intros Hr Hst. exact (with_row_rows consistent st i r Hr Hst). Qed.

Lemma update_where_consistent i cond set st :
  (∀ r, consistent r -> cond r = true -> consistent (set r)) ->
  all_consistent st -> all_consistent (Pg.update_where i cond set st).1.
Proof.
  intros Hset Hst. unfold Pg.update_where.
  destruct (Pg.books st !! i) as [r|] eqn:Hr; [|done].
  destruct (cond r) eqn:Hc; [|done].
  apply insert_consistent; [|done]. apply Hset; [|done]. by apply (Hst i).
Qed.

Lemma execute_consistent q now st :
  names_borrower q -> all_consistent st ->
  all_consistent (Pg.execute q now st).1.
Proof.
  intros Hq Hst.
  assert (Hins : ∀ t a c d, all_consistent (Pg.insert t a c d st).1).
  { intros t a c d. unfold Pg.insert.
    destruct (negb _); [done|].
    destruct t as [t|];
      [destruct (Pg.books st !! Pg.books_id_seq st) as [r0|]|];
      try (intros j r; apply Hst).
    simpl. apply insert_consistent; [by left|]. intros j r. apply Hst. }
  destruct q as [|p|t a c d|t a c d|i t a c d|i|i w|i w|i]; simpl in *;
    try done; try (apply update_where_consistent; [|done]).
  - by intros r Hr _.
  - destruct (Pg.books st !! i) as [r|] eqn:Hr; [|done].
    simpl. exact (without_row_rows consistent st i Hst).
  - destruct Hq as (s & -> & Hs). intros r _ _. right. split; [done|].
    unfold borrower_empty. simpl. by destruct (String.eqb_spec s "").
  - destruct Hq as (s & -> & Hs). intros r _ _. right. split; [done|].
    unfold borrower_empty. simpl. by destruct (String.eqb_spec s "").
  - intros r _ _. by left.
Qed.

Lemma exec_consistent q now st :
  names_borrower q -> all_consistent st -> all_consistent (Pg.exec q now st).1.
Proof.
  intros Hq Hst. destruct (exec_store_or_refused q now st) as [-> | [e ->]];
    [by apply execute_consistent|done].
Qed.

Lemma recorded_name_nonempty given : recorded_name given ≠ "".
Proof.
  destruct given as [s|]; [|done]. simpl.
  by destruct (String.eqb_spec s "").
Qed.

Lemma server_sends_names route req :
  borrower_as_text req ->
  sends_only names_borrower (Server.app env_ADMIN_KEY compound route req).
Proof.
  intros [given Hg].
  assert (Hfirst : ∀ rows, sends_only names_borrower (Server.send_first rows)).
  { by intros [|x rows]. }
  assert (Hrow : ∀ status msg rep,
            sends_only names_borrower (Server.send_row_or status msg rep)).
  { by intros status msg [[[|x rows] n]|e]. }
  destruct route; simpl;
    unfold Server.get_api_books, Server.post_api_books,
      Server.put_api_books_id, Server.delete_api_books_id,
      Server.post_api_borrow_id, Server.post_api_return_id, Server.okAdmin;
    try (destruct (negb (strict_eq_string _ _)); [done|]).
  - destruct (toString _); [|done]. destruct (negb _); simpl;
      (split; [done|]); by intros [res|e].
  - destruct (negb _); [done|]. simpl. split; [done|].
    intros [res|e]; [apply Hfirst|done].
  - simpl. by split.
  - simpl. split; [done|]. intros [[rows [|n]]|e]; done.
  - rewrite Hg, given_name_toString. simpl. split; [|done].
    eexists. split; [done|]. apply recorded_name_nonempty.
  - simpl. by split.
Qed.

(** As long as every request gives the borrower as a string or not at
    all, every record of server.js is either not borrowed with an empty
    borrower or borrowed with a borrower that is not empty. *)
Lemma borrower_invariant_as_text st :
  reachable_as_text env_ADMIN_KEY compound st -> all_consistent st.
Proof.
  induction 1 as [|st r req now _ IH Hreq]; [by intros i r|].
  apply (run_preserves_sending all_consistent names_borrower);
    [apply exec_consistent|by apply server_sends_names|done].
Qed.

End borrower_invariant.

(** ** The theorems at concrete requests *)

Section at_requests.
Import Scenario Refusals.

Lemma return_transition_witness :
  return_effect (server_borrowed no_compound) 1 3
    (run (Server.post_api_return_id None (give_back 1)) 3
       (server_borrowed no_compound))
    (λ r, book (Server.mapRow r))
  ∧ (run (Server.post_api_return_id None (give_back 1)) 3
       (server_borrowed no_compound)).2
    = sent 200 (book {| id := 1; title := "Dune"; author := "";
                        category := ""; description := "";
                        isBorrowed := false; borrower := "";
                        borrowedAt := iso 2; returnedAt := iso 3 |})
  ∧ return_effect (server_borrowed no_compound) 1 3
      (run (Part000.post_api_return_id None (give_back 1)) 3
         (server_borrowed no_compound))
      raw_row.
Proof.
  destruct (return_transition None (give_back 1) 3
              (server_borrowed no_compound)) as [Hs Hp].
  destruct (Hs eq_refl) as [He Hb].
  split; [exact He|]. split; [|apply Hp; reflexivity].
  exact (Hb (Pg.set_borrowed_clearing (Some "ann") 2
               (Pg.new_row "Dune" (Some "") (Some "") (Some "")))
            eq_refl eq_refl).
Defined.





Lemma update_changes_only_supplied_witness :
  ∃ r', Pg.books (run (Server.put_api_books_id None no_compound set_author) 5
                    (server_borrowed no_compound)).1 !! 1 = Some r'
    ∧ Pg.author r' = Some "Frank Herbert"
    ∧ Pg.title r' = "Dune"
    ∧ Pg.borrower r' = Some "ann".
Proof.
  destruct (update_changes_only_supplied None no_compound set_author 5
              (server_borrowed no_compound) eq_refl) as (_ & _ & _ & _ & H).
  destruct (H (conj eq_refl (conj eq_refl (conj eq_refl eq_refl)))
              (Pg.set_borrowed_clearing (Some "ann") 2
                 (Pg.new_row "Dune" (Some "") (Some "") (Some ""))) eq_refl)
    as (r' & _ & Hst & _ & _ & (_ & Hb & _) & (Ht & _) & (_ & Ha & _)).
  exists r'. split; [exact Hst|]. split; [by apply Ha|].
  split; [by rewrite Ht|by rewrite Hb].
Defined.

(** An update of an id beyond the column's type, which no book has, is
    answered 500 and not 404; an update that gives the author as a
    string holding the character of code zero is answered 500, and the
    author stays as it was. *)
Lemma update_changes_only_supplied_counterexample :
  Server.authorized None (set_author_at beyond_int4)
  ∧ Pg.books (server_one_book no_compound) !! beyond_int4 = None
  ∧ run (Server.put_api_books_id None no_compound (set_author_at beyond_int4)) 5
      (server_one_book no_compound)
    = (server_one_book no_compound,
       sent 500 (error_of numeric_value_out_of_range))
  ∧ is_Some (Pg.books (server_one_book no_compound) !! 1)
  ∧ prop "author" (body (set_author_nul 1)) = VStr nul_name
  ∧ run (Server.put_api_books_id None no_compound (set_author_nul 1)) 5
      (server_one_book no_compound)
    = (server_one_book no_compound,
       sent 500 (error_of character_not_in_repertoire)).
Proof. repeat split. by eexists. Qed.

Lemma unauthorized_before_anything_witness :
  run (Server.post_api_books None no_compound create_wrong_key) 1 Pg.ensureSchema
  = (Pg.ensureSchema, sent 401 (error "unauthorized"))
  ∧ queries (Server.post_api_books None no_compound create_wrong_key) 1
      Pg.ensureSchema = [].
Proof.
  destruct (unauthorized_before_anything None no_compound
              Server.POST_api_books create_wrong_key 1 Pg.ensureSchema
              eq_refl) as (_ & Hq & Hr & _); [discriminate|].
  by split.
Defined.

End at_requests.

(** * Further properties of the code *)

Import Catalog.

(** ** Delete, and operations on an id that is not there *)

Section delete.
Variable env_ADMIN_KEY : option string.
Variable compound : value -> string.

Lemma exec_delete id now st :
  Pg.int4 id = true ->
  Pg.exec (Pg.delete_id id) now st
  = match Pg.books st !! id with
    | Some _ => (Pg.without_row id st,
                 Pg.Ok {| Pg.rows := []; Pg.rowCount := 1 |})
    | None => (st, Pg.Ok {| Pg.rows := []; Pg.rowCount := 0 |})
    end.
Proof. intros Hid. by rewrite exec_bound by by apply bind_id. Qed.

(** A delete of a record that is there removes that record and no other,
    leaves the sequence alone and answers 200 with [{ok: true}]; a delete
    of an id that is not there changes nothing, and answers 404 when the
    id is a value of the column's type and 500 when it is not. *)
Theorem delete_removes_one req now st :
  Server.authorized env_ADMIN_KEY req ->
  let id := params_id req in
  let out := run (Server.delete_api_books_id env_ADMIN_KEY req) now st in
  (id_fits req -> Pg.books st !! id = None ->
   out = (st, sent 404 (error "not found")))
  ∧ (¬ id_fits req ->
     out = (st, sent 500 (error_of numeric_value_out_of_range)))
  ∧ (is_Some (Pg.books st !! id) ->
       out.2 = sent 200 ok_true
       ∧ Pg.books out.1 !! id = None
       ∧ (∀ j, j ≠ id -> Pg.books out.1 !! j = Pg.books st !! j)
       ∧ Pg.books_id_seq out.1 = Pg.books_id_seq st).
Proof.
  intros Hk id out. subst out. unfold Server.delete_api_books_id.
  rewrite okAdmin_admits by done. fold id. unfold id_fits. fold id.
  cbn [run]. split; [|split].
  - intros Hid Hr. rewrite exec_delete by done. by rewrite Hr.
  - intros Hid. apply not_true_is_false in Hid.
    by rewrite (exec_refused _ _ _ numeric_value_out_of_range)
      by by apply bind_id_out.
  - intros [r Hr]. rewrite exec_delete by by eapply lookup_int4.
    rewrite Hr. simpl. rewrite books_without_row.
    split; [done|]. split; [apply lookup_delete_eq|].
    split; [|done]. intros j Hj. by apply lookup_delete_ne.
Qed.


Lemma execute_keeps_retired i q now st :
  i < Pg.books_id_seq st ∧ Pg.books st !! i = None ->
  i < Pg.books_id_seq (Pg.execute q now st).1
  ∧ Pg.books (Pg.execute q now st).1 !! i = None.
Proof.
  intros [Hlt Hnone].
  assert (Hupd : ∀ j cond set,
            i < Pg.books_id_seq (Pg.update_where j cond set st).1
            ∧ Pg.books (Pg.update_where j cond set st).1 !! i = None).
  { intros j cond set. unfold Pg.update_where.
    destruct (Pg.books st !! j) as [r|] eqn:Hr; [|done].
    destruct (cond r); [|done]. simpl. split; [done|].
    rewrite lookup_with_row_ne; [done|]. intros ->. congruence. }
  assert (Hins : ∀ t a c d,
            i < Pg.books_id_seq (Pg.insert t a c d st).1
            ∧ Pg.books (Pg.insert t a c d st).1 !! i = None).
  { intros t a c d. unfold Pg.insert.
    destruct (negb _); [done|].
    destruct t as [t|];
      [destruct (Pg.books st !! Pg.books_id_seq st) as [r0|]|];
      simpl; (split; [lia|]); try done.
    rewrite lookup_with_row_ne; [done|lia]. }
  destruct q as [|p|t a c d|t a c d|j t a c d|j|j w|j w|j]; simpl;
    try done.
  destruct (Pg.books st !! j) as [r|] eqn:Hr; [|done]. simpl.
  split; [done|]. rewrite books_without_row.
  destruct (decide (j = i)) as [->|Hne].
  - apply lookup_delete_eq.
  - by rewrite lookup_delete_ne.
Qed.

Lemma exec_keeps_retired i q now st :
  i < Pg.books_id_seq st ∧ Pg.books st !! i = None ->
  i < Pg.books_id_seq (Pg.exec q now st).1
  ∧ Pg.books (Pg.exec q now st).1 !! i = None.
Proof.
  intros H. destruct (exec_store_or_refused q now st) as [-> | [e ->]];
    [by apply execute_keeps_retired|done].
Qed.

(** Deletion is final: once a record has been deleted its id stays out of
    the table, whatever requests follow; no later create is given it. *)
Theorem deleted_id_never_returns req now st st' :
  Server.reachable env_ADMIN_KEY compound st ->
  Server.authorized env_ADMIN_KEY req ->
  is_Some (Pg.books st !! params_id req) ->
  reachable_from env_ADMIN_KEY compound
    (run (Server.delete_api_books_id env_ADMIN_KEY req) now st).1 st' ->
  Pg.books st' !! params_id req = None.
Proof.
  intros Hst Hk [r Hr] Hfrom.
  pose proof (server_reachable_ids_below _ _ _ Hst _ _ Hr) as Hlt.
  cut (params_id req < Pg.books_id_seq st'
       ∧ Pg.books st' !! params_id req = None); [by intros [_ ?]|].
  induction Hfrom as [|st1 route req1 now1 _ IH].
  - unfold Server.delete_api_books_id. rewrite okAdmin_admits by done.
    cbn [run]. rewrite exec_delete by by eapply lookup_int4.
    rewrite Hr. simpl. split; [done|].
    rewrite books_without_row. apply lookup_delete_eq.
  - by apply (run_preserves _ (exec_keeps_retired (params_id req))).
Qed.

End delete.

(** ** What borrow and return leave alone, and how they compose *)

Section cycle.
Variable env_ADMIN_KEY : option string.
Variable compound : value -> string.

Lemma lifecycle_only_refl id st : lifecycle_only id st st.
Proof. repeat split; try done. intros r Hr. by exists r. Qed.

Lemma update_where_lifecycle_only id cond set st :
  (∀ r, Pg.title (set r) = Pg.title r ∧ Pg.author (set r) = Pg.author r
        ∧ Pg.category (set r) = Pg.category r
        ∧ Pg.description (set r) = Pg.description r) ->
  lifecycle_only id st (Pg.update_where id cond set st).1.
Proof.
  intros Hset. unfold Pg.update_where.
  destruct (Pg.books st !! id) as [r|] eqn:Hr;
    [|apply lifecycle_only_refl].
  destruct (cond r); [|apply lifecycle_only_refl].
  split; [done|]. split; [|split]; simpl.
  - intros j Hj. by rewrite lookup_with_row_ne.
  - by rewrite Hr.
  - intros r0. rewrite Hr. intros [= <-]. exists (set r).
    split; [|done]. apply lookup_with_row_eq. by eapply lookup_int4.
Qed.

(** A statement on the borrow columns of [id], bound or refused. *)
Lemma exec_lifecycle_only id q now st :
  q = Pg.return_id id ∨ (∃ who, q = Pg.borrow_clearing id who)
  ∨ (∃ who, q = Pg.borrow_keeping id who) ->
  lifecycle_only id st (Pg.exec q now st).1.
Proof.
  intros Hq. destruct (exec_store_or_refused q now st) as [-> | [e ->]];
    [|apply lifecycle_only_refl].
  destruct Hq as [-> | [[who ->] | [who ->]]]; simpl;
    by apply update_where_lifecycle_only.
Qed.

(** Whatever the request, a borrow or a return changes nothing but the
    borrow columns of the one record it names: no record appears or
    disappears, no other record changes, and the title, author, category
    and description of that record stay.  Both servers. *)
Theorem lifecycle_changes_one_record req now st :
  let id := params_id req in
  lifecycle_only id st
    (run (Server.post_api_borrow_id env_ADMIN_KEY compound req) now st).1
  ∧ lifecycle_only id st
      (run (Server.post_api_return_id env_ADMIN_KEY req) now st).1
  ∧ lifecycle_only id st
      (run (Part000.post_api_borrow_id env_ADMIN_KEY compound req) now st).1
  ∧ lifecycle_only id st
      (run (Part000.post_api_return_id env_ADMIN_KEY req) now st).1.
Proof.
  intros id. split; [|split; [|split]].
  - unfold Server.post_api_borrow_id, Server.okAdmin.
    destruct (negb _); [apply lifecycle_only_refl|].
    destruct (toString _) as [name|]; [|apply lifecycle_only_refl].
    cbn [run Pg.prepareValue]. fold id.
    pose proof (exec_lifecycle_only id
                  (Pg.borrow_clearing id (Some name)) now st) as H.
    destruct (Pg.exec _ _ _) as [st' rep].
    rewrite (run_send_row_or_store Server.send_row_or) by by left.
    apply H. right. left. by eexists.
  - unfold Server.post_api_return_id, Server.okAdmin.
    destruct (negb _); [apply lifecycle_only_refl|]. cbn [run]. fold id.
    pose proof (exec_lifecycle_only id (Pg.return_id id) now st) as H.
    destruct (Pg.exec _ _ _) as [st' rep].
    rewrite (run_send_row_or_store Server.send_row_or) by by left.
    apply H. by left.
  - unfold Part000.post_api_borrow_id.
    destruct (negb _); [apply lifecycle_only_refl|]. cbn [run]. fold id.
    set (who := Pg.prepareValue _ _).
    pose proof (exec_lifecycle_only id (Pg.borrow_keeping id who) now st) as H.
    destruct (Pg.exec _ _ _) as [st' rep].
    rewrite (run_send_row_or_store Part000.send_row_or) by by right.
    apply H. right. right. by eexists.
  - unfold Part000.post_api_return_id.
    destruct (negb _); [apply lifecycle_only_refl|]. cbn [run]. fold id.
    pose proof (exec_lifecycle_only id (Pg.return_id id) now st) as H.
    destruct (Pg.exec _ _ _) as [st' rep].
    rewrite (run_send_row_or_store Part000.send_row_or) by by right.
    apply H. by left.
Qed.

(** In server.js a borrow at time [t1] followed by a return at time [t2]
    of an Available book, the borrower being one server.js can turn into
    text the store takes, both succeed and leave the book Available
    again, so that it can be borrowed anew: the record is as before
    except that its borrower is the empty string, borrowed_at is [t1] and
    returned_at is [t2]. *)
Theorem borrow_then_return req1 req2 t1 t2 st r :
  Server.authorized env_ADMIN_KEY req1 ->
  Server.authorized env_ADMIN_KEY req2 ->
  params_id req2 = params_id req1 ->
  server_borrower_taken req1 ->
  Pg.books st !! params_id req1 = Some r ->
  Pg.is_borrowed r = Some false ->
  let id := params_id req1 in
  let out1 := run (Server.post_api_borrow_id env_ADMIN_KEY compound req1) t1 st in
  let out2 := run (Server.post_api_return_id env_ADMIN_KEY req2) t2 out1.1 in
  let r2 := {| Pg.title := Pg.title r; Pg.author := Pg.author r;
               Pg.category := Pg.category r;
               Pg.description := Pg.description r;
               Pg.is_borrowed := Some false; Pg.borrower := Some "";
               Pg.borrowed_at := Some t1; Pg.returned_at := Some t2 |} in
  succeeded out1.2
  ∧ out2.2 = sent 200 (book (Server.mapRow (id, r2)))
  ∧ Pg.books out2.1 = <[id := r2]> (Pg.books st)
  ∧ Pg.books_id_seq out2.1 = Pg.books_id_seq st
  ∧ book_state out2.1 id = Some Available.
Proof.
  intros Hk1 Hk2 Hid (name & Hn & Ht) Hr Hb id out1 out2 r2. subst out2 out1.
  assert (Hfit : Pg.int4 id = true) by by eapply lookup_int4.
  rewrite (server_borrow_run _ _ _ _ _ name) by done. fold id.
  rewrite exec_borrow_clearing by done.
  rewrite (update_where_hit _ _ _ _ r);
    [|done|unfold Pg.is_borrowed_eq; by rewrite Hb].
  simpl. rewrite server_return_run by done. rewrite Hid. fold id.
  rewrite exec_return by done.
  rewrite (update_where_hit _ _ _ _
             (Pg.set_borrowed_clearing (Some name) t1 r));
    [|by apply lookup_with_row_eq|done].
  simpl. split; [by eexists|]. split; [done|].
  split; [by rewrite !books_with_row, insert_insert_eq|]. split; [done|].
  unfold book_state. by rewrite lookup_with_row_eq.
Qed.

End cycle.

(** ** One statement for each request *)

Section one_statement.
Variable env_ADMIN_KEY : option string.
Variable compound : value -> string.

Lemma server_single_statement route req :
  single_statement (Server.app env_ADMIN_KEY compound route req).
Proof.
  assert (Hfirst : ∀ rows, answered (Server.send_first rows)).
  { by intros [|x rows]. }
  assert (Hrow : ∀ status msg rep,
            answered (Server.send_row_or status msg rep)).
  { by intros status msg [[[|x rows] n]|e]. }
  destruct route; simpl;
    unfold Server.get_api_books, Server.post_api_books,
      Server.put_api_books_id, Server.delete_api_books_id,
      Server.post_api_borrow_id, Server.post_api_return_id, Server.okAdmin;
    try (destruct (negb (strict_eq_string _ _)); [done|]).
  - destruct (toString _); [|done]. destruct (negb _); simpl;
      by intros [res|e].
  - destruct (negb _); [done|]. simpl. intros [res|e]; [apply Hfirst|done].
  - simpl. apply Hrow.
  - simpl. by intros [[rows [|n]]|e].
  - destruct (toString _); [|done]. simpl. apply Hrow.
  - simpl. apply Hrow.
Qed.

Lemma part000_single_statement route req :
  single_statement (Part000.app env_ADMIN_KEY compound route req).
Proof.
  assert (Hfirst : ∀ rows, answered (Part000.send_first rows)).
  { by intros [|x rows]. }
  assert (Hrow : ∀ status msg rep,
            answered (Part000.send_row_or status msg rep)).
  { by intros status msg [[[|x rows] n]|e]. }
  destruct route; simpl;
    unfold Part000.get_api_books, Part000.post_api_books,
      Part000.post_api_borrow_id, Part000.post_api_return_id;
    try (destruct (negb (strict_eq_string _ _)); [done|]).
  - by intros [res|e].
  - destruct (body req); try done; simpl;
      (intros [res|e]; [apply Hfirst|done]).
  - simpl. apply Hrow.
  - simpl. apply Hrow.
Qed.

Lemma single_statement_queries p now st :
  single_statement p -> (List.length (queries p now st) <= 1)%nat.
Proof.
  destruct p as [status payload|e|q k]; simpl; [lia|lia|].
  intros Hk. destruct (Pg.exec q now st) as [st' r]. specialize (Hk r).
  destruct (k r); [simpl; lia|simpl; lia|done].
Qed.

(** No handler of either server sends more than one statement to the
    store for a request: whatever it decides, it decides in a single
    statement. *)
Theorem one_statement_per_request now st :
  (∀ route req,
     (List.length (queries (Server.app env_ADMIN_KEY compound route req) now st)
      <= 1)%nat)
  ∧ (∀ route req,
       (List.length
          (queries (Part000.app env_ADMIN_KEY compound route req) now st)
        <= 1)%nat).
Proof.
  split; intros route req; apply single_statement_queries;
    [apply server_single_statement|apply part000_single_statement].
Qed.

End one_statement.

(** ** Answers of server.js *)

Section answers.
Variable env_ADMIN_KEY : option string.
Variable compound : value -> string.

Lemma update_where_cases id cond set st :
  (∃ r, Pg.books st !! id = Some r ∧ cond r = true
        ∧ Pg.update_where id cond set st
          = (Pg.with_row id (set r) st,
             Pg.Ok {| Pg.rows := [(id, set r)]; Pg.rowCount := 1 |}))
  ∨ Pg.update_where id cond set st
    = (st, Pg.Ok {| Pg.rows := []; Pg.rowCount := 0 |}).
Proof.
  unfold Pg.update_where.
  destruct (Pg.books st !! id) as [r|] eqn:Hr; [|by right].
  destruct (cond r) eqn:Hc; [|by right]. left. by exists r.
Qed.

Lemma exec_one_record_cases q now st :
  on_one_record q ->
  (∃ id r r', Pg.books st !! id = Some r
      ∧ Pg.exec q now st
        = (Pg.with_row id r' st,
           Pg.Ok {| Pg.rows := [(id, r')]; Pg.rowCount := 1 |}))
  ∨ Pg.exec q now st = (st, Pg.Ok {| Pg.rows := []; Pg.rowCount := 0 |})
  ∨ ∃ e, Pg.exec q now st = (st, Pg.Err e).
Proof.
  intros Hq. destruct (exec_store_or_refused q now st) as [-> | [e ->]];
    [|right; right; by exists e].
  destruct q as [|p|t a c d|t a c d|i t a c d|i|i w|i w|i]; try done; simpl;
    match goal with
    | |- context [Pg.update_where ?i ?cond ?set st] =>
        destruct (update_where_cases i cond set st)
          as [(r & Hr & _ & ->)| ->]; [left; by exists i, r, (set r)|by right; left]
    end.
Qed.

Lemma insert_cases t a c d st :
  ids_below_seq st ->
  Pg.int4 (Pg.books_id_seq st) = true ->
  Pg.insert (Some t) a c d st
  = (Pg.with_row (Pg.books_id_seq st) (Pg.new_row t a c d) (Pg.advanced st),
     Pg.Ok {| Pg.rows := [(Pg.books_id_seq st, Pg.new_row t a c d)];
              Pg.rowCount := 1 |}).
Proof.
  intros Hst Hseq. unfold Pg.insert. rewrite Hseq. simpl.
  destruct (Pg.books st !! Pg.books_id_seq st) as [r|] eqn:Hr; [|done].
  apply Hst in Hr. lia.
Qed.

Lemma truthy_prepared v :
  truthy v = true -> is_Some (Pg.prepareValue compound v).
Proof. destruct v; simpl; try done; by eexists. Qed.

(** The insert of a title, in a store whose keys were drawn from the
    sequence: the row is written and yielded, or nothing has happened. *)
Lemma exec_insert_cases t a c d now st :
  ids_below_seq st ->
  let q := Pg.insert_false (Some t) a c d in
  (Pg.int4 (Pg.books_id_seq st) = true
   ∧ Pg.exec q now st
     = (Pg.with_row (Pg.books_id_seq st) (Pg.new_row t a c d) (Pg.advanced st),
        Pg.Ok {| Pg.rows := [(Pg.books_id_seq st, Pg.new_row t a c d)];
                 Pg.rowCount := 1 |}))
  ∨ ∃ e, Pg.exec q now st = (st, Pg.Err e).
Proof.
  intros Hst q. subst q.
  destruct (exec_store_or_refused (Pg.insert_false (Some t) a c d) now st)
    as [-> | [e ->]]; [|right; by exists e].
  simpl. destruct (Pg.int4 (Pg.books_id_seq st)) eqn:Hseq.
  - left. split; [done|]. by apply insert_cases.
  - right. unfold Pg.insert. rewrite Hseq. by eexists.
Qed.

(** server.js answers every request, and each route only with the status
    codes written in it: 200 or 500 for the list, and for the others 401,
    500, 200 and, by route, 400 or 404. *)
Theorem server_always_answers route req now st :
  ∃ status payload,
    (run (Server.app env_ADMIN_KEY compound route req) now st).2
    = sent status payload
    ∧ status ∈ statuses route.
Proof.
  assert (Hfirst : ∀ rows s, ∃ status payload,
            (run (Server.send_first rows) now s).2 = sent status payload
            ∧ (status = 200 ∨ status = 500)).
  { intros [|x rows] s; eexists _, _; (split; [done|]); auto. }
  assert (Hrow : ∀ code msg rep s, ∃ status payload,
            (run (Server.send_row_or code msg rep) now s).2 = sent status payload
            ∧ (status = 200 ∨ status = code ∨ status = 500)).
  { intros code msg [[[|x rows] n]|e] s; eexists _, _; (split; [done|]); auto. }
  destruct route; cbn [Server.app];
    unfold Server.get_api_books, Server.post_api_books,
      Server.put_api_books_id, Server.delete_api_books_id,
      Server.post_api_borrow_id, Server.post_api_return_id, Server.okAdmin;
    try (destruct (negb (strict_eq_string _ _));
         [eexists _, _; split; [done|set_solver]|]).
  - destruct (toString _); [|eexists _, _; split; [done|set_solver]].
    destruct (negb _); cbn [run]; destruct (Pg.exec _ _ _) as [s' [res|e]];
      eexists _, _; (split; [done|set_solver]).
  - cbv zeta. destruct (negb _); [eexists _, _; split; [done|set_solver]|].
    cbn [run].
    destruct (Pg.exec _ _ _) as [s [res|e]];
      [|eexists _, _; split; [done|set_solver]].
    destruct (Hfirst (Pg.rows res) s) as (status & payload & -> & [->| ->]);
      eexists _, _; (split; [done|set_solver]).
  - cbn [run]. destruct (Pg.exec _ _ _) as [s rep].
    destruct (Hrow 404 "not found" rep s)
      as (status & payload & -> & [->|[->| ->]]);
      eexists _, _; (split; [done|set_solver]).
  - cbn [run]. destruct (Pg.exec _ _ _) as [s [[rows [|n]]|e]]; simpl;
      eexists _, _; (split; [done|set_solver]).
  - cbv zeta.
    destruct (toString _); [|eexists _, _; split; [done|set_solver]].
    cbn [run].
    destruct (Pg.exec _ _ _) as [s' rep].
    destruct (Hrow 400 "not found or already borrowed" rep s')
      as (status & payload & -> & [->|[->| ->]]);
      eexists _, _; (split; [done|set_solver]).
  - cbn [run]. destruct (Pg.exec _ _ _) as [s' rep].
    destruct (Hrow 400 "not found or not borrowed" rep s')
      as (status & payload & -> & [->|[->| ->]]);
      eexists _, _; (split; [done|set_solver]).
Qed.

Lemma exec_select_store q now st :
  q = Pg.select_all ∨ (∃ p, q = Pg.select_like p) ->
  (Pg.exec q now st).1 = st.
Proof.
  intros Hq. destruct (exec_store_or_refused q now st) as [-> | [e ->]];
    [|done].
  by destruct Hq as [-> | [p ->]].
Qed.

(** In a store server.js has reached, a request that is answered with
    anything but 200 has changed nothing: every refusal and every error
    leaves the table and the sequence as they were. *)
Theorem refusal_changes_nothing route req now st status payload :
  Server.reachable env_ADMIN_KEY compound st ->
  (run (Server.app env_ADMIN_KEY compound route req) now st).2
  = sent status payload ->
  status ≠ 200 ->
  (run (Server.app env_ADMIN_KEY compound route req) now st).1 = st.
Proof.
  intros Hst%server_reachable_ids_below.
  assert (Hone : ∀ q code msg, on_one_record q ->
            (let '(st', rep) := Pg.exec q now st in
             run (Server.send_row_or code msg rep) now st').2
            = sent status payload ->
            status ≠ 200 ->
            (let '(st', rep) := Pg.exec q now st in
             run (Server.send_row_or code msg rep) now st').1 = st).
  { intros q code msg Hq.
    destruct (exec_one_record_cases q now st Hq)
      as [(i & r & r' & _ & ->)|[-> | [e ->]]]; simpl; congruence. }
  destruct route; cbn [Server.app];
    unfold Server.get_api_books, Server.post_api_books,
      Server.put_api_books_id, Server.delete_api_books_id,
      Server.post_api_borrow_id, Server.post_api_return_id, Server.okAdmin;
    try (destruct (negb (strict_eq_string _ _)); [done|]).
  - destruct (toString _) as [s|]; [|done]. intros _ _.
    destruct (negb _); cbn [run].
    + pose proof (exec_select_store (Pg.select_like ("%" +:+ trim s +:+ "%"))
                    now st) as He.
      destruct (Pg.exec _ _ _) as [s' [res|e]]; simpl in *; apply He; eauto.
    + pose proof (exec_select_store Pg.select_all now st) as He.
      destruct (Pg.exec _ _ _) as [s' [res|e]]; simpl in *; apply He; eauto.
  - cbv zeta. destruct (negb (truthy _)) eqn:Ht; [done|]. cbn [run].
    apply negb_false_iff, truthy_prepared in Ht as [t ->].
    match goal with
    | |- context [Pg.exec (Pg.insert_false (Some t) ?a ?c ?d) now st] =>
        destruct (exec_insert_cases t a c d now st Hst) as [[_ ->]|[e ->]]
    end; simpl; congruence.
  - by apply Hone.
  - cbn [run].
    destruct (exec_store_or_refused (Pg.delete_id (params_id req)) now st)
      as [-> | [e ->]]; [|done].
    simpl. destruct (Pg.books st !! _); simpl; congruence.
  - cbv zeta. destruct (toString _) as [name|]; [|done]. by apply Hone.
  - by apply Hone.
Qed.

(** Whenever server.js answers with a book, that book is a record of the
    store as the request leaves it: the answer of a create, an update, a
    borrow or a return is what is stored. *)
Theorem answer_is_stored route req now st b :
  (run (Server.app env_ADMIN_KEY compound route req) now st).2
  = sent 200 (book b) ->
  shows (run (Server.app env_ADMIN_KEY compound route req) now st).1 b.
Proof.
  assert (Hone : ∀ q code msg, on_one_record q ->
            (let '(st', rep) := Pg.exec q now st in
             run (Server.send_row_or code msg rep) now st').2
            = sent 200 (book b) ->
            shows (let '(st', rep) := Pg.exec q now st in
                   run (Server.send_row_or code msg rep) now st').1 b).
  { intros q code msg Hq.
    destruct (exec_one_record_cases q now st Hq)
      as [(i & r & r' & Hr & ->)|[-> | [e ->]]]; simpl; [|done..].
    intros [= <-]. exists i, r'.
    split; [|done]. apply lookup_with_row_eq. by eapply lookup_int4. }
  destruct route; cbn [Server.app];
    unfold Server.get_api_books, Server.post_api_books,
      Server.put_api_books_id, Server.delete_api_books_id,
      Server.post_api_borrow_id, Server.post_api_return_id, Server.okAdmin;
    try (destruct (negb (strict_eq_string _ _)); [done|]).
  - destruct (toString _); [|done].
    destruct (negb _); cbn [run]; by destruct (Pg.exec _ _ _) as [s' [res|e]].
  - cbv zeta. destruct (negb (truthy _)); [done|]. cbn [run].
    match goal with
    | |- context [Pg.exec ?q now st] =>
        destruct (exec_store_or_refused q now st) as [-> | [e ->]]; [|done]
    end.
    simpl. unfold Pg.insert.
    destruct (Pg.int4 (Pg.books_id_seq st)) eqn:Hseq; [|done]. simpl.
    destruct (Pg.prepareValue compound (prop "title" _)) as [t|]; [|done].
    destruct (Pg.books st !! Pg.books_id_seq st); [done|]. simpl.
    intros [= <-]. eexists _, _.
    split; [by apply lookup_with_row_eq|done].
  - by apply Hone.
  - cbn [run]. by destruct (Pg.exec _ _ _) as [s' [[rows [|n]]|e]].
  - cbv zeta. destruct (toString _) as [name|]; [|done]. by apply Hone.
  - by apply Hone.
Qed.

End answers.

(** ** Update and create, composed *)

Section composed.
Variable env_ADMIN_KEY : option string.
Variable compound : value -> string.

Lemma set_fields_twice t a c d r :
  Pg.set_fields t a c d (Pg.set_fields t a c d r) = Pg.set_fields t a c d r.
Proof. unfold Pg.set_fields. simpl. by destruct t, a, c, d. Qed.

Lemma with_row_twice id r st :
  Pg.with_row id r (Pg.with_row id r st) = Pg.with_row id r st.
Proof. unfold Pg.with_row. simpl. by rewrite insert_insert_eq. Qed.

(** Sending the same update a second time changes nothing more and gets
    the same answer: the store after the second is the store after the
    first, whether the first was applied, refused or not found. *)
Theorem update_twice req now1 now2 st :
  let out := run (Server.put_api_books_id env_ADMIN_KEY compound req) now1 st in
  run (Server.put_api_books_id env_ADMIN_KEY compound req) now2 out.1 = out.
Proof.
  intros out. subst out. unfold Server.put_api_books_id, Server.okAdmin.
  destruct (negb _); [done|]. cbn [run].
  set (q := Pg.update_fields _ _ _ _ _).
  destruct (Pg.bind (Pg.parameters q)) as [e|] eqn:Hb.
  - by rewrite !(exec_refused _ _ _ e) by done.
  - rewrite !exec_bound by done. subst q. cbn [Pg.execute].
    set (set := Pg.set_fields _ _ _ _).
    destruct (update_where_cases (params_id req) (λ _, true) set st)
      as [(r & Hr & _ & Hupd)|Hupd]; rewrite Hupd; simpl.
    + rewrite (update_where_hit _ _ _ _ (set r));
        [|apply lookup_with_row_eq; by eapply lookup_int4|done].
      simpl. subst set. by rewrite set_fields_twice, with_row_twice.
    + by rewrite Hupd.
Qed.

(** In a store server.js has reached whose sequence has a key left, a
    create with a title and with fields the store takes as text, followed
    by the delete of the id it was given, leaves the table as it was
    before the create; only the sequence has moved on, so the id is not
    given out again. *)
Theorem create_then_delete req1 req2 now1 now2 st t :
  Server.reachable env_ADMIN_KEY compound st ->
  Server.authorized env_ADMIN_KEY req1 ->
  Server.authorized env_ADMIN_KEY req2 ->
  prop "title" (body req1) = VStr t -> t ≠ "" ->
  fields_taken compound req1 ->
  Pg.int4 (Pg.books_id_seq st) = true ->
  params_id req2 = Pg.books_id_seq st ->
  let out1 := run (Server.post_api_books env_ADMIN_KEY compound req1) now1 st in
  let out2 := run (Server.delete_api_books_id env_ADMIN_KEY req2) now2 out1.1 in
  (∃ b, out1.2 = sent 200 (book b) ∧ id b = Pg.books_id_seq st)
  ∧ out2.2 = sent 200 ok_true
  ∧ Pg.books out2.1 = Pg.books st
  ∧ Pg.books_id_seq out2.1 = Pg.books_id_seq st + 1.
Proof.
  intros Hst%server_reachable_ids_below Hk1 Hk2 Ht Hne Hf Hseq Hid out1 out2.
  subst out2 out1. unfold Server.post_api_books, Server.delete_api_books_id.
  rewrite !okAdmin_admits by done. rewrite !prop_or_empty, Hid.
  destruct Hf as (Htt & Ha & Hc & Hd). rewrite Ht in Htt |- *.
  cbn [truthy]. destruct (String.eqb_spec t ""); [done|]. cbn [negb run].
  rewrite exec_insert_false by (done || by apply takes_or_default).
  cbn [Pg.prepareValue]. rewrite insert_cases by done.
  cbn [Pg.rows Server.send_first run fst].
  rewrite exec_delete by done.
  rewrite lookup_with_row_eq by done. simpl.
  split; [by eexists|]. split; [done|]. split; [|done].
  rewrite books_without_row, books_inserted by done.
  apply delete_insert_id.
  destruct (Pg.books st !! Pg.books_id_seq st) as [r|] eqn:Hr; [|done].
  apply Hst in Hr. lia.
Qed.

End composed.

(** ** The listing *)

Section listing.
Variable env_ADMIN_KEY : option string.
Variable compound : value -> string.

Lemma order_by_id_insert_last (t : gmap Z Pg.row) k r :
  (∀ i x, t !! i = Some x -> i < k) ->
  Pg.order_by_id (<[k := r]> t) = Pg.order_by_id t ++ [(k, r)].
Proof.
  intros Hlt.
  assert (Hk : t !! k = None).
  { destruct (t !! k) as [x|] eqn:Hx; [|done]. apply Hlt in Hx. lia. }
  destruct (order_by_id_spec t) as [Hs Hin].
  apply (StronglySorted_unique_strong id_lt).
  - unfold id_lt. intros x1 x2 _ _. lia.
  - apply order_by_id_spec.
  - apply StronglySorted_app_2; [|done|repeat constructor].
    intros [i x] x2 Hx ->%list_elem_of_singleton. apply Hin, Hlt in Hx.
    by unfold id_lt.
  - unfold Pg.order_by_id. rewrite !merge_sort_Permutation.
    rewrite map_to_list_insert by done. apply Permutation_cons_append.
Qed.

Lemma exec_select_all now st :
  Pg.exec Pg.select_all now st
  = (st, Pg.Ok {| Pg.rows := Pg.order_by_id (Pg.books st);
                  Pg.rowCount := List.length (Pg.order_by_id (Pg.books st)) |}).
Proof. done. Qed.

(** The list of server.js never changes the store, and neither does the
    list of the second server. *)
Theorem list_reads_only req now st :
  (run (Server.get_api_books req) now st).1 = st
  ∧ (run (Part000.get_api_books req) now st).1 = st.
Proof.
  split.
  - unfold Server.get_api_books.
    destruct (toString _) as [s|]; [|done].
    destruct (negb _); cbn [run].
    + pose proof (exec_select_store (Pg.select_like ("%" +:+ trim s +:+ "%"))
                    now st) as He.
      destruct (Pg.exec _ _ _) as [s' [res|e]]; simpl in *; apply He; eauto.
    + by rewrite exec_select_all.
  - unfold Part000.get_api_books. cbn [run]. by rewrite exec_select_all.
Qed.

(** In a store server.js has reached whose sequence has a key left, a
    book just created, with a title and with fields the store takes as
    text, is listed last: the full listing after the create is the
    listing before it followed by the book the create answered with. *)
Theorem created_book_listed_last req reqL now now1 now2 st t s :
  Server.reachable env_ADMIN_KEY compound st ->
  Server.authorized env_ADMIN_KEY req ->
  prop "title" (body req) = VStr t -> t ≠ "" ->
  fields_taken compound req ->
  Pg.int4 (Pg.books_id_seq st) = true ->
  toString (or (prop "q" (query reqL)) (VStr "")) = Some s -> trim s = "" ->
  ∃ bs b,
    run (Server.get_api_books reqL) now1 st = (st, sent 200 (book_list bs))
    ∧ (run (Server.post_api_books env_ADMIN_KEY compound req) now st).2
      = sent 200 (book b)
    ∧ (run (Server.get_api_books reqL) now2
         (run (Server.post_api_books env_ADMIN_KEY compound req) now st).1).2
      = sent 200 (book_list (bs ++ [b])).
Proof.
  intros Hst%server_reachable_ids_below Hk Ht Hne Hf Hseq Hs Hq.
  unfold Server.get_api_books, Server.post_api_books.
  rewrite okAdmin_admits by done. rewrite !prop_or_empty, Hs, Hq.
  destruct Hf as (Htt & Ha & Hc & Hd). rewrite Ht in Htt |- *.
  cbn [truthy]. destruct (String.eqb_spec t ""); [done|].
  cbn [negb run String.eqb].
  rewrite exec_insert_false by (done || by apply takes_or_default).
  cbn [Pg.prepareValue]. rewrite insert_cases by done.
  cbn [Pg.rows Server.send_first run fst snd].
  rewrite !exec_select_all. cbn [Server.send_books Pg.rows run fst snd].
  eexists _, _. split; [done|]. split; [done|].
  rewrite books_inserted by done.
  rewrite order_by_id_insert_last by apply Hst. by rewrite map_app.
Qed.

End listing.

(** ** Search *)

Section search.

Lemma string_query_text s : toString (or (VStr s) (VStr "")) = Some s.
Proof. unfold or. simpl. by destruct (String.eqb_spec s ""); subst. Qed.

Lemma lower_empty s : Pg.lower s = "" -> s = "".
Proof. by destruct s. Qed.

Lemma where_like_lower p1 p2 r :
  Pg.lower p1 = Pg.lower p2 -> Pg.where_like p1 r = Pg.where_like p2 r.
Proof. intros H. unfold Pg.where_like, Pg.col_like. by rewrite H. Qed.

Lemma lower_ascii_zero c :
  Ascii.eqb (Pg.lower_ascii c) zero = Ascii.eqb c zero.
Proof. by destruct c as [[] [] [] [] [] [] [] []]. Qed.

Lemma has_nul_lower s : Pg.has_nul (Pg.lower s) = Pg.has_nul s.
Proof.
  induction s as [|c s IH]; [done|]. simpl. by rewrite lower_ascii_zero, IH.
Qed.

(** The search of server.js reads the query up to letter case and up to
    blanks around it: two queries that agree once trimmed and put in
    lower case get the same answer. *)
Theorem search_ignores_case_and_blanks req1 req2 now st s1 s2 :
  prop "q" (query req1) = VStr s1 ->
  prop "q" (query req2) = VStr s2 ->
  Pg.lower (trim s1) = Pg.lower (trim s2) ->
  run (Server.get_api_books req1) now st = run (Server.get_api_books req2) now st.
Proof.
  intros H1 H2 Hl. unfold Server.get_api_books.
  rewrite H1, H2, !string_query_text.
  destruct (String.eqb_spec (trim s1) "") as [E1|E1],
    (String.eqb_spec (trim s2) "") as [E2|E2]; cbn [negb run].
  - done.
  - rewrite E1 in Hl. symmetry in Hl. by apply lower_empty in Hl.
  - rewrite E2 in Hl. by apply lower_empty in Hl.
  - assert (Hn : Pg.has_nul (trim s1) = Pg.has_nul (trim s2)).
    { by rewrite <- (has_nul_lower (trim s1)), Hl, has_nul_lower. }
    destruct (Pg.has_nul (trim s2)) eqn:Hn2.
    + by rewrite !exec_select_like_refused by by rewrite has_nul_pattern.
    + rewrite !exec_select_like by by rewrite has_nul_pattern.
      assert (Hf : filter (λ x : Z * Pg.row,
                     Pg.where_like ("%" +:+ trim s1 +:+ "%") x.2 = true)
                     (Pg.order_by_id (Pg.books st))
                   = filter (λ x : Z * Pg.row,
                       Pg.where_like ("%" +:+ trim s2 +:+ "%") x.2 = true)
                       (Pg.order_by_id (Pg.books st))).
      { apply list_filter_iff. intros x.
        rewrite (where_like_lower _ ("%" +:+ trim s2 +:+ "%")); [done|].
        by rewrite !lower_append, Hl. }
      by rewrite Hf.
Qed.

(** Whatever the query, what the search of server.js answers is part of
    the full listing, in the same ascending order of id: a search never
    shows a book the list does not, nor one out of order. *)
Theorem search_within_listing req reqL now st s bs :
  toString (or (prop "q" (query reqL)) (VStr "")) = Some s -> trim s = "" ->
  (run (Server.get_api_books req) now st).2 = sent 200 (book_list bs) ->
  ∃ all, (run (Server.get_api_books reqL) now st).2 = sent 200 (book_list all)
    ∧ sublist bs all ∧ ascending bs.
Proof.
  intros Hs Hq. unfold Server.get_api_books. rewrite Hs, Hq.
  destruct (order_by_id_spec (Pg.books st)) as [Hsorted _].
  destruct (toString (or (prop "q" (query req)) (VStr ""))) as [s'|];
    [|done].
  cbn [negb String.eqb run]. rewrite !exec_select_all.
  destruct (negb (String.eqb (trim s') "")); cbn [run].
  - destruct (Pg.has_nul ("%" +:+ trim s' +:+ "%")) eqn:Hn.
    + by rewrite exec_select_like_refused.
    + rewrite exec_select_like by done. simpl. intros [= <-].
      eexists. split; [done|].
      split; [|by apply sent_ascending, ascending_filter].
      apply (fmap_sublist Server.mapRow), sublist_filter.
  - rewrite exec_select_all. simpl. intros [= <-].
    eexists. split; [done|]. split; [done|by apply sent_ascending].
Qed.

End search.

(** ** The guard, whatever the configuration *)

Section guard_configuration.
Variable env_ADMIN_KEY : option string.
Variable compound : value -> string.

(** Whatever ADMIN_KEY is set to in the environment, the empty string
    included, server.js refuses a mutating request that carries no key,
    or only falsy ones such as the empty string: the secret is never
    empty, so the guard cannot be switched off. *)
Theorem no_key_refused route req :
  Server.mutating route = true ->
  truthy (Server.admin_key req) = false ->
  Server.app env_ADMIN_KEY compound route req
  = respond 401 (error "unauthorized").
Proof.
  intros Hm Hkey. apply server_refuses; [done|].
  unfold Server.authorized, strict_eq_string.
  destruct (Server.admin_key req) as [| |b|n|s|xs|ps]; try done.
  simpl in Hkey. apply negb_false_iff in Hkey.
  apply String.eqb_eq in Hkey as ->.
  pose proof (ADMIN_KEY_nonempty env_ADMIN_KEY) as Hne.
  by destruct (String.eqb_spec "" (Server.ADMIN_KEY env_ADMIN_KEY)).
Qed.

(** The second server, too, turns away a request whose header is not the
    secret before it does anything else: create, borrow and return answer
    401, send no statement and leave the store as it is, even when the
    body is missing. *)
Theorem part000_unauthorized_first route req now st :
  route ≠ Part000.GET_api_books ->
  ¬ Part000.authorized env_ADMIN_KEY req ->
  Part000.app env_ADMIN_KEY compound route req
  = respond 401 (error "unauthorized")
  ∧ queries (Part000.app env_ADMIN_KEY compound route req) now st = []
  ∧ run (Part000.app env_ADMIN_KEY compound route req) now st
    = (st, sent 401 (error "unauthorized")).
Proof.
  intros Hr Hk.
  assert (H : Part000.app env_ADMIN_KEY compound route req
              = respond 401 (error "unauthorized")).
  { unfold Part000.authorized in Hk.
    destruct route; try done; simpl;
      unfold Part000.post_api_books, Part000.post_api_borrow_id,
        Part000.post_api_return_id;
      by destruct (strict_eq_string _ _). }
  by rewrite H.
Qed.

End guard_configuration.


(** ** The shapes of a record *)

Section shapes.
Variable env_ADMIN_KEY : option string.
Variable compound : value -> string.

Lemma insert_shaped i r st :
  never_borrowed r ∨ out_on_loan r ∨ given_back r -> shaped st ->
  shaped (Pg.with_row i r st).
Proof.
  intros Hr Hst.
  exact (with_row_rows (λ x, never_borrowed x ∨ out_on_loan x ∨ given_back x)
           st i r Hr Hst).
Qed.

Lemma update_where_shaped i cond set st :
  (∀ r, never_borrowed r ∨ out_on_loan r ∨ given_back r -> cond r = true ->
        never_borrowed (set r) ∨ out_on_loan (set r) ∨ given_back (set r)) ->
  shaped st -> shaped (Pg.update_where i cond set st).1.
Proof.
  intros Hset Hst. unfold Pg.update_where.
  destruct (Pg.books st !! i) as [r|] eqn:Hr; [|done].
  destruct (cond r) eqn:Hc; [|done].
  apply insert_shaped; [|done]. apply Hset; [|done]. by apply (Hst i).
Qed.

Lemma execute_shaped q now st :
  server_statement q -> shaped st -> shaped (Pg.execute q now st).1.
Proof.
  intros Hq Hst.
  assert (Hins : ∀ t a c d, shaped (Pg.insert t a c d st).1).
  { intros t a c d. unfold Pg.insert.
    destruct (negb _); [done|].
    destruct t as [t|];
      [destruct (Pg.books st !! Pg.books_id_seq st) as [r0|]|];
      try (intros j r; apply Hst).
    simpl. apply insert_shaped; [by left|]. intros j r. apply Hst. }
  destruct q as [|p|t a c d|t a c d|i t a c d|i|i w|i w|i]; simpl in *;
    try done; try (apply update_where_shaped; [|done]).
  - by intros r Hr _.
  - destruct (Pg.books st !! i) as [r|] eqn:Hr; [|done]. simpl.
    exact (without_row_rows
             (λ x, never_borrowed x ∨ out_on_loan x ∨ given_back x) st i Hst).
  - intros r _ _. right. left. by repeat split.
  - intros r Hr Hc. right. right.
    unfold Pg.is_borrowed_eq in Hc.
    destruct Hr as [(Hb & _)|[(_ & _ & Hat & _)|(Hb & _)]];
      [by rewrite Hb in Hc| |by rewrite Hb in Hc].
    by repeat split.
Qed.

Lemma exec_shaped q now st :
  server_statement q -> shaped st -> shaped (Pg.exec q now st).1.
Proof.
  intros Hq Hst. destruct (exec_store_or_refused q now st) as [-> | [e ->]];
    [by apply execute_shaped|done].
Qed.

Lemma server_sends_server_statements route req :
  sends_only server_statement (Server.app env_ADMIN_KEY compound route req).
Proof.
  assert (Hfirst : ∀ rows, sends_only server_statement (Server.send_first rows)).
  { by intros [|x rows]. }
  assert (Hrow : ∀ status msg rep,
            sends_only server_statement (Server.send_row_or status msg rep)).
  { by intros status msg [[[|x rows] n]|e]. }
  destruct route; simpl;
    unfold Server.get_api_books, Server.post_api_books,
      Server.put_api_books_id, Server.delete_api_books_id,
      Server.post_api_borrow_id, Server.post_api_return_id, Server.okAdmin;
    try (destruct (negb (strict_eq_string _ _)); [done|]).
  - destruct (toString _); [|done]. destruct (negb _); simpl;
      (split; [done|]); by intros [res|e].
  - destruct (negb _); [done|]. simpl. split; [done|].
    intros [res|e]; [apply Hfirst|done].
  - simpl. by split.
  - simpl. split; [done|]. intros [[rows [|n]]|e]; done.
  - destruct (toString _); [|done]. simpl. split; [by eexists|done].
  - simpl. by split.
Qed.

(** Every record server.js can leave in the store has one of three
    shapes.  Never borrowed: not borrowed, borrower and both times NULL.
    On loan: borrowed, with a borrower and a borrowing time and no return
    time.  Given back: not borrowed, borrower the empty string, both
    times set.  So a borrowed book never carries a return time, and a
    return time never comes without a borrowing time. *)
Theorem records_have_three_shapes st :
  Server.reachable env_ADMIN_KEY compound st -> shaped st.
Proof.
  induction 1 as [|st route req now _ IH]; [by intros i r|].
  apply (run_preserves_sending shaped server_statement);
    [apply exec_shaped|apply server_sends_server_statements|done].
Qed.

End shapes.

(** ** Requests in flight together *)

Section together.
Variable env_ADMIN_KEY : option string.
Variable compound : value -> string.

Lemma run_answered p now st : answered p -> (run p now st).1 = st.
Proof. by destruct p. Qed.

Lemma step_keeps_reachable st ts st' ts' :
  Server.reachable env_ADMIN_KEY compound st ->
  Forall (λ t, answered t
               ∨ ∃ route req, t = Server.app env_ADMIN_KEY compound route req) ts ->
  step (st, ts) (st', ts') ->
  Server.reachable env_ADMIN_KEY compound st'
  ∧ Forall (λ t, answered t
                 ∨ ∃ route req, t = Server.app env_ADMIN_KEY compound route req) ts'.
Proof.
  intros Hst Hts Hstep.
  inversion Hstep as [s l i q k now s' r Hi He]; subst.
  pose proof (Forall_lookup_1 _ _ _ _ Hts Hi) as [[]|(route & req & Happ)].
  pose proof (server_single_statement env_ADMIN_KEY compound route req) as Hone.
  rewrite <- Happ in Hone. simpl in Hone. split.
  - pose proof (Server.reach_request env_ADMIN_KEY compound st route req now Hst)
      as Hreach.
    rewrite <- Happ in Hreach. simpl in Hreach. rewrite He in Hreach.
    by rewrite run_answered in Hreach by apply Hone.
  - apply Forall_insert; [done|]. by left.
Qed.

(** However the statements of any number of requests to server.js are
    interleaved, the store is at every moment one that the same server
    reaches by handling requests one after the other: what holds of every
    store reached in sequence holds while requests overlap. *)
Theorem overlapping_requests_reach_nothing_new reqs st st' ts' :
  Server.reachable env_ADMIN_KEY compound st ->
  rtc step (st, in_flight env_ADMIN_KEY compound reqs) (st', ts') ->
  Server.reachable env_ADMIN_KEY compound st'.
Proof.
  intros Hst Hrtc.
  cut (∀ c, rtc step (st, in_flight env_ADMIN_KEY compound reqs) c ->
         Server.reachable env_ADMIN_KEY compound c.1
         ∧ Forall (λ t, answered t
                        ∨ ∃ route req,
                            t = Server.app env_ADMIN_KEY compound route req) c.2).
  { intros H. by apply (H (st', ts')). }
  apply rtc_ind_r.
  - split; [done|]. unfold in_flight. apply Forall_forall.
    intros t ([route req] & -> & _)%list_elem_of_fmap. right. by eexists _, _.
  - intros [s1 l1] [s2 l2] _ Hstep [Hs Hl]. by eapply step_keeps_reachable.
Qed.

End together.


(** ** Two returns in flight *)

Section two_returns.
Variables (from to : state) (refusal : prog) (id : Z).
Hypothesis from_to : from ≠ to.
Hypothesis refusal_answered : answered refusal.
Hypothesis refusal_not_won : ¬ won refusal.

Lemma attempt_waits p : attempt from to refusal id p -> ¬ answered p.
Proof. intros (q & k & -> & _) []. Qed.

Lemma race_step p1 p2 c c' :
  attempt from to refusal id p1 -> attempt from to refusal id p2 ->
  race from to refusal id p1 p2 c -> step c c' ->
  race from to refusal id p1 p2 c'.
Proof.
  intros (q1 & k1 & -> & H1) (q2 & k2 & -> & H2) Hc Hstep.
  assert (Hne : Some to ≠ Some from) by congruence.
  inversion Hstep as [s ts i q k now s' r Hi He]; subst.
  inversion Hc as [s0 Hs|s0 t1 Hs Hw|s0 t2 Hs Hw|s0 t1 t2 Hw]; subst;
    destruct i as [|[|i]]; simpl in Hi; simplify_eq.
  - destruct (H1 now s) as [[Hb Hw] _]; [done|]. rewrite He in Hb, Hw.
    by apply race_first.
  - destruct (H2 now s) as [[Hb Hw] _]; [done|]. rewrite He in Hb, Hw.
    by apply race_second.
  - by apply won_answered in Hw.
  - destruct (H2 now s) as [_ [Hb Hl]]; [congruence|]. rewrite He in Hb, Hl.
    simpl in *; subst. apply race_over; auto.
  - destruct (H1 now s) as [_ [Hb Hl]]; [congruence|]. rewrite He in Hb, Hl.
    simpl in *; subst. apply race_over; auto.
  - by apply won_answered in Hw.
  - destruct Hw as [[Hw _]|[Hl _]];
      [by apply won_answered in Hw|by rewrite <- Hl in refusal_answered].
  - destruct Hw as [[_ Hl]|[_ Hw]];
      [by rewrite <- Hl in refusal_answered|by apply won_answered in Hw].
Qed.

Lemma attempt_runs p s :
  attempt from to refusal id p -> ∃ s' t, answered t ∧ ∀ l1 l2,
    step (s, l1 ++ p :: l2) (s', l1 ++ t :: l2).
Proof.
  intros (q & k & -> & H).
  exists (Pg.exec q 0 s).1, (k (Pg.exec q 0 s).2). split.
  - destruct (book_state s id) as [b|] eqn:Hs.
    + destruct (H 0 s) as [Hhit Hmiss].
      destruct from, b;
        first [ by apply won_answered, Hhit
              | (destruct Hmiss as [_ ->]; [by rewrite Hs|done]) ].
    + destruct (H 0 s) as [_ [_ ->]]; [by rewrite Hs|done].
  - intros l1 l2.
    replace (l1 ++ k (Pg.exec q 0 s).2 :: l2)
      with (<[List.length l1 := k (Pg.exec q 0 s).2]> (l1 ++ await_query q k :: l2)).
    + eapply step_query; [|by apply surjective_pairing].
      by rewrite list_lookup_middle.
    + rewrite insert_app_r_alt by lia.
      by replace (List.length l1 - List.length l1)%nat with 0%nat by lia.
Qed.

Lemma attempts_race p1 p2 st :
  attempt from to refusal id p1 -> attempt from to refusal id p2 ->
  book_state st id = Some from ->
  exactly_one_wins refusal st p1 p2.
Proof.
  intros Hp1 Hp2 Hst st' ts Hrtc.
  assert (Hc : race from to refusal id p1 p2 (st', ts)).
  { revert Hrtc. generalize (st', ts). apply rtc_ind_r; [by apply race_start|].
    intros c c' _ Hstep IH. by eapply race_step. }
  pose proof (attempt_waits _ Hp1) as Hn1.
  pose proof (attempt_waits _ Hp2) as Hn2.
  inversion Hc as [s0 Hs|s0 t1 Hs Hw|s0 t2 Hs Hw|s0 t1 t2 Hw]; subst;
    eexists _, _; (split; [reflexivity|]).
  - split; [|split].
    + intros [Hw _]. by apply Hn1, won_answered.
    + intros Ha. by destruct Hn1.
    + destruct (attempt_runs p1 st' Hp1) as (s1 & u1 & Hu1 & Hstep1).
      destruct (attempt_runs p2 s1 Hp2) as (s2 & u2 & Hu2 & Hstep2).
      exists s2, u1, u2. split; [|done].
      eapply rtc_l; [apply (Hstep1 [] [p2])|].
      eapply rtc_l; [apply (Hstep2 [u1] [])|]. done.
  - split; [|split].
    + intros [_ Hw']. by apply Hn2, won_answered.
    + intros _ Ha. by destruct Hn2.
    + destruct (attempt_runs p2 st' Hp2) as (s2 & u2 & Hu2 & Hstep2).
      exists s2, t1, u2. split; [|by auto using won_answered].
      eapply rtc_l; [apply (Hstep2 [t1] [])|]. done.
  - split; [|split].
    + intros [Hw' _]. by apply Hn1, won_answered.
    + intros Ha. by destruct Hn1.
    + destruct (attempt_runs p1 st' Hp1) as (s1 & u1 & Hu1 & Hstep1).
      exists s1, u1, t2. split; [|by auto using won_answered].
      eapply rtc_l; [apply (Hstep1 [] [t2])|]. done.
  - split; [|split].
    + intros [Hw1 Hw2]. destruct Hw as [[_ ->]|[-> _]]; by apply refusal_not_won.
    + done.
    + exists st', t1, t2. split; [done|].
      destruct Hw as [[? ->]|[-> ?]]; auto using won_answered.
Qed.

End two_returns.

Section concurrent_return.
Variable env_ADMIN_KEY : option string.

Lemma conditional_return_attempt id
    (send : Z -> string -> Pg.reply -> prog) :
  Pg.int4 id = true ->
  send 400 "not found or not borrowed"
    (Pg.Ok {| Pg.rows := []; Pg.rowCount := 0 |})
  = return_refusal ->
  (∀ x, won (send 400 "not found or not borrowed"
               (Pg.Ok {| Pg.rows := [x]; Pg.rowCount := 1 |}))) ->
  attempt Borrowed Available return_refusal id
    (await_query (Pg.return_id id) (send 400 "not found or not borrowed")).
Proof.
  intros Hid Hmiss Hhit. eexists _, _. split; [done|].
  intros now s. rewrite exec_return by done. split.
  - intros (r & Hr & Hb)%state_borrowed.
    rewrite (update_where_hit _ _ _ _ r);
      [|done|unfold Pg.is_borrowed_eq; by rewrite Hb].
    split; [|apply Hhit]. apply state_available. simpl.
    exists (Pg.set_returned now r). split; [|done].
    by apply lookup_with_row_eq.
  - intros Hs. rewrite update_where_miss; [done|].
    by apply (not_state_miss _ _ true).
Qed.

(** Two return requests for one Borrowed book, in flight together: under
    every order in which the store takes their statements exactly one is
    answered with the book and the other with the conflict, and at no
    moment have both been answered with the book.  Both servers. *)
Theorem concurrent_return_exactly_one req1 req2 st :
  params_id req1 = params_id req2 ->
  book_state st (params_id req1) = Some Borrowed ->
  (Server.authorized env_ADMIN_KEY req1 ->
   Server.authorized env_ADMIN_KEY req2 ->
   exactly_one_wins return_refusal st
     (Server.post_api_return_id env_ADMIN_KEY req1)
     (Server.post_api_return_id env_ADMIN_KEY req2))
  ∧ (Part000.authorized env_ADMIN_KEY req1 ->
     Part000.authorized env_ADMIN_KEY req2 ->
     exactly_one_wins return_refusal st
       (Part000.post_api_return_id env_ADMIN_KEY req1)
       (Part000.post_api_return_id env_ADMIN_KEY req2)).
Proof.
  intros Hid Hst.
  assert (Hfit : Pg.int4 (params_id req1) = true) by by eapply state_int4.
  assert (Hrace : ∀ p1 p2,
            attempt Borrowed Available return_refusal (params_id req1) p1 ->
            attempt Borrowed Available return_refusal (params_id req1) p2 ->
            exactly_one_wins return_refusal st p1 p2).
  { intros p1 p2 Hp1 Hp2.
    apply (attempts_race Borrowed Available return_refusal (params_id req1));
      try done.
    intros [payload [=]]. }
  split; intros Hk1 Hk2; apply Hrace.
  - unfold Server.post_api_return_id. rewrite okAdmin_admits by done.
    apply (conditional_return_attempt _ Server.send_row_or); [done|done|].
    intros x. by eexists.
  - unfold Server.post_api_return_id. rewrite okAdmin_admits by done.
    rewrite <- Hid.
    apply (conditional_return_attempt _ Server.send_row_or); [done|done|].
    intros x. by eexists.
  - unfold Part000.post_api_return_id. unfold Part000.authorized in Hk1.
    rewrite Hk1. simpl.
    apply (conditional_return_attempt _ Part000.send_row_or); [done|done|].
    intros x. by eexists.
  - unfold Part000.post_api_return_id. unfold Part000.authorized in Hk2.
    rewrite Hk2, <- Hid. simpl.
    apply (conditional_return_attempt _ Part000.send_row_or); [done|done|].
    intros x. by eexists.
Qed.

End concurrent_return.

(** ** Two creates in flight *)

Section two_creates.
Variable env_ADMIN_KEY : option string.
Variable compound : value -> string.

Lemma server_create_awaits req :
  Server.authorized env_ADMIN_KEY req ->
  truthy (prop "title" (body req)) = true ->
  fields_taken compound req ->
  ∃ t a c d,
    Server.post_api_books env_ADMIN_KEY compound req
    = await_query (Pg.insert_false (Some t) a c d)
        (λ r, match r with
              | Pg.Ok res => Server.send_first (Pg.rows res)
              | Pg.Err e => Server.caught e
              end)
    ∧ takes (Some t) ∧ takes a ∧ takes c ∧ takes d.
Proof.
  intros Hk Ht (Htt & Ha & Hc & Hd).
  unfold Server.post_api_books. rewrite okAdmin_admits by done.
  rewrite !prop_or_empty, Ht. simpl.
  destruct (truthy_prepared compound _ Ht) as [t Hp]. rewrite Hp in Htt |- *.
  eexists _, _, _, _. split; [done|]. split; [done|].
  split; [|split]; by apply takes_or_default.
Qed.

Lemma insert_fresh t a c d st :
  Pg.int4 (Pg.books_id_seq st) = true ->
  Pg.books st !! Pg.books_id_seq st = None ->
  Pg.insert (Some t) a c d st
  = (Pg.with_row (Pg.books_id_seq st) (Pg.new_row t a c d) (Pg.advanced st),
     Pg.Ok {| Pg.rows := [(Pg.books_id_seq st, Pg.new_row t a c d)];
              Pg.rowCount := 1 |}).
Proof. intros Hseq Hr. unfold Pg.insert. by rewrite Hseq, Hr. Qed.

(** Two creates in flight together in a store server.js has reached,
    each with a title and with fields the store takes as text, while the
    sequence has two keys left: however the store takes their two
    inserts, both are answered 200, the two books have different ids,
    neither id was in use before, and both books are in the store. *)
Theorem concurrent_creates_distinct_ids req1 req2 st st' ts :
  Server.reachable env_ADMIN_KEY compound st ->
  Server.authorized env_ADMIN_KEY req1 ->
  Server.authorized env_ADMIN_KEY req2 ->
  truthy (prop "title" (body req1)) = true ->
  truthy (prop "title" (body req2)) = true ->
  fields_taken compound req1 ->
  fields_taken compound req2 ->
  Pg.int4 (Pg.books_id_seq st) = true ->
  Pg.int4 (Pg.books_id_seq st + 1) = true ->
  rtc step (st, [Server.post_api_books env_ADMIN_KEY compound req1;
                 Server.post_api_books env_ADMIN_KEY compound req2]) (st', ts) ->
  ∃ t1 t2, ts = [t1; t2]
    ∧ (answered t1 -> answered t2 ->
       ∃ b1 b2, t1 = respond 200 (book b1) ∧ t2 = respond 200 (book b2)
         ∧ id b1 ≠ id b2
         ∧ Pg.books st !! id b1 = None ∧ Pg.books st !! id b2 = None
         ∧ shows st' b1 ∧ shows st' b2).
Proof.
  intros Hst%server_reachable_ids_below Hk1 Hk2 Ht1 Ht2 Hf1 Hf2 Hseq Hseq1.
  destruct (server_create_awaits req1 Hk1 Ht1 Hf1)
    as (x1 & a1 & c1 & d1 & -> & Hx1 & Ha1 & Hc1 & Hd1).
  destruct (server_create_awaits req2 Hk2 Ht2 Hf2)
    as (x2 & a2 & c2 & d2 & -> & Hx2 & Ha2 & Hc2 & Hd2).
  revert Hseq Hseq1.
  set (k := Pg.books_id_seq st). intros Hseq Hseq1.
  set (r1 := Pg.new_row x1 a1 c1 d1). set (r2 := Pg.new_row x2 a2 c2 d2).
  set (p1 := await_query (Pg.insert_false (Some x1) a1 c1 d1) _).
  set (p2 := await_query (Pg.insert_false (Some x2) a2 c2 d2) _).
  assert (Hfresh : ∀ j, k <= j -> Pg.books st !! j = None).
  { intros j Hj. destruct (Pg.books st !! j) as [r|] eqn:Hr; [|done].
    apply Hst in Hr. unfold k in Hj. lia. }
  set (after1 := Pg.with_row k r1 (Pg.advanced st)).
  set (after2 := Pg.with_row k r2 (Pg.advanced st)).
  assert (Hnext : ∀ r, Pg.books (Pg.with_row k r (Pg.advanced st)) !! (k + 1)
                       = None).
  { intros r. rewrite lookup_with_row_ne by lia. apply Hfresh. lia. }
  intros Hrtc.
  cut ((st', ts) = (st, [p1; p2])
       ∨ (st', ts) = (after1, [respond 200 (book (Server.mapRow (k, r1))); p2])
       ∨ (st', ts) = (after2, [p1; respond 200 (book (Server.mapRow (k, r2)))])
       ∨ (st', ts)
         = (Pg.with_row (k + 1) r2 (Pg.advanced after1),
            [respond 200 (book (Server.mapRow (k, r1)));
             respond 200 (book (Server.mapRow (k + 1, r2)))])
       ∨ (st', ts)
         = (Pg.with_row (k + 1) r1 (Pg.advanced after2),
            [respond 200 (book (Server.mapRow (k + 1, r1)));
             respond 200 (book (Server.mapRow (k, r2)))])).
  { intros [E|[E|[E|[E|E]]]]; injection E as -> ->; eexists _, _;
      (split; [done|]); try (by intros []); try (by intros _ []);
      intros _ _; eexists _, _; (split; [done|]); (split; [done|]); simpl.
    - split; [lia|]. split; [by apply Hfresh|]. split; [apply Hfresh; lia|].
      split; [exists k, r1|exists (k + 1), r2]; simpl;
        (split; [|done]).
      + rewrite lookup_with_row_ne by lia. by apply lookup_with_row_eq.
      + by apply lookup_with_row_eq.
    - split; [lia|]. split; [apply Hfresh; lia|]. split; [by apply Hfresh|].
      split; [exists (k + 1), r1|exists k, r2]; simpl;
        (split; [|done]).
      + by apply lookup_with_row_eq.
      + rewrite lookup_with_row_ne by lia. by apply lookup_with_row_eq. }
  revert Hrtc. generalize (st', ts). apply rtc_ind_r; [by left|].
  intros c c' _ Hstep IH.
  inversion Hstep as [s l i q kk now s' r Hi He]; subst.
  destruct IH as [E|[E|[E|[E|E]]]]; injection E as -> ->;
    destruct i as [|[|i]]; simpl in Hi; simplify_eq;
    rewrite exec_insert_false in He by done.
  - rewrite insert_fresh in He by (done || apply Hfresh; unfold k; lia).
    injection He as <- <-. right. by left.
  - rewrite insert_fresh in He by (done || apply Hfresh; unfold k; lia).
    injection He as <- <-. right. right. by left.
  - rewrite insert_fresh in He by (done || apply Hnext).
    injection He as <- <-. right. right. right. by left.
  - rewrite insert_fresh in He by (done || apply Hnext).
    injection He as <- <-. right. right. right. by right.
Qed.

End two_creates.

(** ** Where an empty borrower can come from *)

Section empty_borrower.
Variable env_ADMIN_KEY : option string.
Variable compound : value -> string.

Lemma string_of_Z_nonempty n : string_of_Z n ≠ "".
Proof. unfold string_of_Z. by destruct (Z.to_int n) as [[]|[]]. Qed.

Lemma empty_text_is_array v :
  toString (or v (VStr "unknown")) = Some "" -> ∃ xs, v = VArr xs.
Proof.
  unfold or. destruct v as [| |[]|n|s|xs|ps]; simpl; try done.
  - destruct (Z.eqb n 0); [done|]. intros [= H].
    by apply string_of_Z_nonempty in H.
  - destruct (String.eqb_spec s ""); [done|]. simpl. by intros [= ->].
  - intros _. by exists xs.
  - by destruct (own "toString" ps).
Qed.

(** In server.js a borrow leaves a book borrowed with an empty borrower
    only when the body gives the borrower as an array; a missing
    borrower, a string, a number, a boolean or an object never does. *)
Theorem empty_borrower_needs_array req now st r r' :
  Pg.books st !! params_id req = Some r ->
  Pg.is_borrowed r = Some false ->
  Pg.books (run (Server.post_api_borrow_id env_ADMIN_KEY compound req) now st).1
    !! params_id req = Some r' ->
  Pg.is_borrowed r' = Some true ->
  Pg.borrower r' = Some "" ->
  ∃ xs, prop "borrower" (body req) = VArr xs.
Proof.
  intros Hr Hb. unfold Server.post_api_borrow_id, Server.okAdmin.
  destruct (negb _); [simpl; rewrite Hr; intros [= <-]; congruence|].
  destruct (toString _) as [name|] eqn:Hn;
    [|simpl; rewrite Hr; intros [= <-]; congruence].
  cbn [run Pg.prepareValue].
  destruct (exec_store_or_refused
              (Pg.borrow_clearing (params_id req) (Some name)) now st)
    as [-> | [e ->]];
    [|simpl; rewrite Hr; intros [= <-]; congruence].
  simpl. rewrite (update_where_hit _ _ _ _ r);
    [|done|unfold Pg.is_borrowed_eq; by rewrite Hb].
  simpl. rewrite lookup_with_row_eq by by eapply lookup_int4.
  intros [= <-] _. simpl. intros [= ->].
  by apply empty_text_is_array.
Qed.

End empty_borrower.

(** ** The further properties at concrete requests *)

Section further_at_requests.
Import Scenario Cases.

Abbreviation S1 := (server_one_book no_compound).
Abbreviation B1 := (server_borrowed no_compound).

Lemma server_one_book_reached : Server.reachable None no_compound S1.
Proof.
  apply (Server.reach_request None no_compound _ Server.POST_api_books
           (create "Dune") 1), Server.reach_start.
Defined.

Lemma server_borrowed_reached : Server.reachable None no_compound B1.
Proof.
  apply (Server.reach_request None no_compound _ Server.POST_api_borrow_id
           (borrow 1 (VStr "ann")) 2), server_one_book_reached.
Defined.

Lemma delete_removes_one_witness :
  (run (Server.delete_api_books_id None (remove 1)) 2 S1).2 = sent 200 ok_true
  ∧ Pg.books (run (Server.delete_api_books_id None (remove 1)) 2 S1).1 !! 1
    = None.
Proof.
  destruct (delete_removes_one None (remove 1) 2 S1 eq_refl) as (_ & _ & H).
  destruct H as (H1 & H2 & _); [by eexists|]. by split.
Defined.


Lemma deleted_id_never_returns_witness :
  Pg.books
    (run (Server.post_api_books None no_compound (create "Emma")) 3
       (run (Server.delete_api_books_id None (remove 1)) 2 S1).1).1 !! 1
  = None.
Proof.
  apply (deleted_id_never_returns None no_compound (remove 1) 2 S1);
    [apply server_one_book_reached|reflexivity|by eexists|].
  apply (from_request None no_compound _ _ Server.POST_api_books
           (create "Emma") 3), from_here.
Defined.

Lemma borrow_then_return_witness :
  book_state
    (run (Server.post_api_return_id None (give_back 1)) 3
       (run (Server.post_api_borrow_id None no_compound (borrow 1 (VStr "ann")))
          2 S1).1).1 1
  = Some Available.
Proof.
  apply (borrow_then_return None no_compound (borrow 1 (VStr "ann"))
           (give_back 1) 2 3 S1
           (Pg.new_row "Dune" (Some "") (Some "") (Some "")));
    first [reflexivity | by exists "ann"].
Defined.

Lemma refusal_changes_nothing_witness :
  (run (Server.post_api_borrow_id None no_compound (borrow 1 (VStr "bob"))) 3
     B1).1 = B1.
Proof.
  apply (refusal_changes_nothing None no_compound Server.POST_api_borrow_id
           (borrow 1 (VStr "bob")) 3 B1 400
           (error "not found or already borrowed"));
    [apply server_borrowed_reached|reflexivity|discriminate].
Defined.

Lemma answer_is_stored_witness :
  ∃ b, (run (Server.post_api_borrow_id None no_compound
               (borrow 1 (VStr "ann"))) 2 S1).2 = sent 200 (book b)
    ∧ shows (run (Server.post_api_borrow_id None no_compound
                    (borrow 1 (VStr "ann"))) 2 S1).1 b.
Proof.
  eexists. split; [reflexivity|].
  apply (answer_is_stored None no_compound Server.POST_api_borrow_id
           (borrow 1 (VStr "ann")) 2 S1).
  reflexivity.
Defined.

Lemma create_then_delete_witness :
  Pg.books
    (run (Server.delete_api_books_id None (remove 2)) 4
       (run (Server.post_api_books None no_compound (create "Emma")) 3 S1).1).1
  = Pg.books S1.
Proof.
  apply (create_then_delete None no_compound (create "Emma") (remove 2) 3 4
           S1 "Emma");
    [apply server_one_book_reached|reflexivity|reflexivity|reflexivity
    |discriminate|by repeat split|reflexivity|reflexivity].
Defined.

Lemma created_book_listed_last_witness :
  ∃ bs b,
    (run (Server.get_api_books (search "")) 5
       (run (Server.post_api_books None no_compound (create "Emma")) 3 S1).1).2
    = sent 200 (book_list (bs ++ [b])).
Proof.
  destruct (created_book_listed_last None no_compound (create "Emma")
              (search "") 3 2 5 S1 "Emma" "")
    as (bs & b & _ & _ & H);
    [apply server_one_book_reached|reflexivity|reflexivity|discriminate
    |by repeat split|reflexivity|reflexivity|reflexivity|].
  by exists bs, b.
Defined.

Lemma search_ignores_case_and_blanks_witness :
  run (Server.get_api_books (search " DUNE ")) 2 S1
  = run (Server.get_api_books (search "dune")) 2 S1.
Proof.
  apply (search_ignores_case_and_blanks (search " DUNE ") (search "dune") 2 S1
           " DUNE " "dune"); reflexivity.
Defined.

Lemma search_within_listing_witness :
  ∃ all, (run (Server.get_api_books (search "")) 2 S1).2
         = sent 200 (book_list all)
    ∧ sublist [Server.mapRow (1, Pg.new_row "Dune" (Some "") (Some "") (Some ""))]
        all.
Proof.
  destruct (search_within_listing (search "du") (search "") 2 S1 ""
              [Server.mapRow (1, Pg.new_row "Dune" (Some "") (Some "") (Some ""))]
              eq_refl eq_refl eq_refl) as (all & H & Hsub & _).
  by exists all.
Defined.

Lemma no_key_refused_witness :
  Server.app (Some "") no_compound Server.POST_api_books no_key
  = respond 401 (error "unauthorized").
Proof.
  apply (no_key_refused (Some "") no_compound Server.POST_api_books no_key);
    reflexivity.
Defined.

Lemma part000_unauthorized_first_witness :
  run (Part000.app None no_compound Part000.POST_api_books create_wrong_key) 1
    Pg.ensureSchema
  = (Pg.ensureSchema, sent 401 (error "unauthorized")).
Proof.
  apply (part000_unauthorized_first None no_compound Part000.POST_api_books
           create_wrong_key 1 Pg.ensureSchema); discriminate.
Defined.

Lemma records_have_three_shapes_witness : shaped B1.
Proof.
  apply (records_have_three_shapes None no_compound), server_borrowed_reached.
Defined.

Lemma overlapping_requests_reach_nothing_new_witness :
  Server.reachable None no_compound
    (run (Server.post_api_borrow_id None no_compound (borrow 1 (VStr "bob"))) 5
       S1).1.
Proof.
  eapply (overlapping_requests_reach_nothing_new None no_compound two_borrows S1);
    [apply server_one_book_reached|].
  eapply rtc_l; [|apply rtc_refl].
  eapply (step_query _ _ 1%nat _ _ 5); reflexivity.
Defined.

Lemma concurrent_return_exactly_one_witness :
  exactly_one_wins return_refusal B1
    (Server.post_api_return_id None (give_back 1))
    (Server.post_api_return_id None (give_back 1)).
Proof.
  destruct (concurrent_return_exactly_one None (give_back 1) (give_back 1) B1
              eq_refl eq_refl) as [Hs _].
  apply Hs; reflexivity.
Defined.

Lemma concurrent_creates_distinct_ids_witness :
  ∃ b1 b2 : Book, id b1 ≠ id b2 ∧ title b1 = "Emma" ∧ title b2 = "Persuasion".
Proof.
  edestruct (concurrent_creates_distinct_ids None no_compound
               (create "Emma") (create "Persuasion") S1)
    as (t1 & t2 & E & H);
    [apply server_one_book_reached|reflexivity|reflexivity|reflexivity
    |reflexivity|by repeat split|by repeat split|reflexivity|reflexivity| |].
  - eapply rtc_l; [eapply (step_query _ _ 1%nat _ _ 5); reflexivity|].
    eapply rtc_l; [eapply (step_query _ _ 0%nat _ _ 6); reflexivity|].
    apply rtc_refl.
  - simpl in E. injection E as <- <-.
    destruct H as (b1 & b2 & E1 & E2 & Hne & _); [exact I|exact I|].
    injection E1 as <-. injection E2 as <-. eexists _, _.
    split; [exact Hne|]. split; reflexivity.
Defined.

Lemma empty_borrower_needs_array_witness :
  ∃ xs, prop "borrower" (body (borrow 1 (VArr []))) = VArr xs.
Proof.
  eapply (empty_borrower_needs_array None no_compound (borrow 1 (VArr [])) 2 S1);
    reflexivity.
Defined.

Lemma server_borrow_transition_witness :
  borrow_effect S1 1 2 (Some "ann")
    (run (Server.post_api_borrow_id None no_compound (borrow 1 (VStr "ann"))) 2 S1)
    (λ r, book (Server.mapRow r)).
Proof.
  destruct (server_borrow_transition None no_compound (borrow 1 (VStr "ann"))
              2 S1 (Some "ann") eq_refl eq_refl) as [H _].
  apply H. reflexivity.
Defined.

Lemma part000_borrow_transition_witness :
  book_state S1 1 = Some Available
  <-> succeeded
        (run (Part000.post_api_borrow_id None no_compound
                (borrow 1 (VStr "ann"))) 2 S1).2.
Proof.
  destruct (part000_borrow_transition None no_compound (borrow 1 (VStr "ann"))
              2 S1 (Some "ann") eq_refl eq_refl) as [H _].
  destruct (H eq_refl) as [Hiff _]. exact Hiff.
Defined.

Lemma server_create_witness :
  ∃ i r, Pg.books S1 !! i = None
    ∧ Pg.books (run (Server.post_api_books None no_compound (create "Emma")) 3
                  S1).1 = <[i := r]> (Pg.books S1)
    ∧ Pg.title r = "Emma".
Proof.
  destruct (server_create None no_compound (create "Emma") 3 S1
              server_one_book_reached eq_refl) as [_ H].
  destruct (H "Emma" eq_refl) as [Hdone _]; [discriminate|].
  destruct Hdone as (i & r & Hfresh & Hst & _ & Ht & _);
    [by repeat split|reflexivity|].
  by exists i, r.
Defined.

Lemma server_guard_decides_witness :
  run (Server.app None no_compound Server.POST_api_books create_wrong_key) 1
    Pg.ensureSchema
  = (Pg.ensureSchema, sent 401 (error "unauthorized")).
Proof.
  destruct (server_guard_decides None no_compound Server.POST_api_books
              create_wrong_key 1 Pg.ensureSchema) as [H _].
  destruct (H eq_refl) as [_ H']. apply H'. discriminate.
Defined.

Lemma server_list_all_witness :
  ∃ bs, run (Server.get_api_books (search "  ")) 2 S1
        = (S1, sent 200 (book_list bs))
    ∧ ascending bs
    ∧ ∀ b, b ∈ bs <-> shows S1 b.
Proof.
  apply (server_list_all (search "  ") 2 S1 "  "); reflexivity.
Defined.

Lemma server_search_plain_witness :
  ∃ bs, run (Server.get_api_books (search " Dune")) 2 S1
        = (S1, sent 200 (book_list bs))
    ∧ ascending bs
    ∧ ∀ b, b ∈ bs <-> matches "Dune" b = true ∧ shows S1 b.
Proof.
  destruct (server_search_plain (search " Dune") 2 S1 " Dune") as [H _];
    [reflexivity|discriminate|reflexivity|].
  apply H. reflexivity.
Defined.

Lemma borrower_invariant_as_text_witness : all_consistent B1.
Proof.
  apply (borrower_invariant_as_text None no_compound).
  apply (as_text_request None no_compound _ Server.POST_api_borrow_id
           (borrow 1 (VStr "ann")) 2); [|by exists (Some "ann")].
  apply (as_text_request None no_compound _ Server.POST_api_books
           (create "Dune") 1); [|by exists None].
  apply as_text_start.
Defined.

End further_at_requests.
